(** * Mnemonist LRUCache: a shallow embedding of [src/lru-cache.js]

    The cache keeps its doubly-linked recency list in two typed arrays of
    slot indices ([forward], [backward]), the stored keys and values in two
    plain arrays, and the key-to-slot index in a [Map].  The embedding
    follows the source statement by statement:

    - a typed array is a list of cells together with its element class;
      a store wraps modulo the element width and is dropped outside the
      bounds, a load outside the bounds is [None] (JavaScript [undefined]);
    - a plain [Array] is a list whose holes read as [undefined]; a store
      past the end extends it;
    - the [Map] is a [gmap] from keys to slots;
    - every method threads the cache explicitly.  A method returns [None]
      exactly when it loads a slot pointer from outside a typed array: from
      there on JavaScript would compute with [undefined] pointers, which
      this development does not follow.  Reachable caches of positive
      capacity never get there (lemmas [set_wf], [get_wf], [splayOnTop_wf]
      and [reachable_wf]). *)

From Stdlib Require Import ZArith QArith Lia.
From stdpp Require Import base option list gmap strings.

Local Open Scope nat_scope.

(** ** JavaScript arrays *)

Module Js.

(** A number handed to a constructor: exactly the integers are the
    rationals whose denominator divides the numerator. *)
Definition is_integer (q : Q) : bool := (Qnum q mod Zpos (Qden q) =? 0)%Z.

(** [ToIntegerOrInfinity]: truncation towards zero. *)
Definition truncate (q : Q) : Z := (Qnum q ÷ Zpos (Qden q))%Z.

(** [new Array(len)] for a number [len] throws a RangeError unless
    [ToUint32(len) = len]; otherwise it has [len] holes.  [None] is the
    throw, the result is the length. *)
Definition array_length (len : Q) : option nat :=
  if is_integer len && (0 <=? truncate len)%Z && (truncate len <? 2 ^ 32)%Z
  then Some (Z.to_nat (truncate len)) else None.

(** The value [undefined] of a type of JavaScript values. *)
Class Undefined (A : Type) : Type := undefined : A.

Section Array.

Context {A : Type} `{Undefined A}.

(** [new Array(len)]: [len] holes. *)
Definition new_Array (len : Q) : option (list A) :=
  n ← array_length len; Some (replicate n undefined).

(** [arr[i]]: a hole or an index past the end reads [undefined]. *)
Definition arr_get (arr : list A) (i : nat) : A := default undefined (arr !! i).

(** [arr[i] = x]: a store past the end extends the array with holes. *)
Definition arr_set (arr : list A) (i : nat) (x : A) : list A :=
  if decide (i < length arr) then <[i := x]> arr
  else arr ++ replicate (i - length arr) undefined ++ [x].

End Array.

End Js.

(** ** [utils/typed-arrays.js] *)

Module Typed.

Inductive PointerArray := Uint8Array | Uint16Array | Uint32Array.

Definition bits (P : PointerArray) : Z :=
  match P with Uint8Array => 8 | Uint16Array => 16 | Uint32Array => 32 end%Z.

(** Modelled from the spec: [typed.getPointerArray] of
    [utils/typed-arrays.js], which is not among the sources.  It "returns
    the smallest unsigned fixed-width integer representation able to index
    [0, capacity)", that is the narrowest class whose largest value reaches
    [capacity - 1].  Beyond 32 bits no class fits; the result is then
    [None], and the constructor below fails on it.  (Whatever the real
    helper answers there, [new Array(capacity)] throws for such a
    capacity, so the choice cannot be observed through the constructor.) *)
Definition getPointerArray (size : Q) : option PointerArray :=
  let maxIndex := (size - 1)%Q in
  if Qle_bool maxIndex (inject_Z (2 ^ 8 - 1)) then Some Uint8Array
  else if Qle_bool maxIndex (inject_Z (2 ^ 16 - 1)) then Some Uint16Array
  else if Qle_bool maxIndex (inject_Z (2 ^ 32 - 1)) then Some Uint32Array
  else None.

(** A typed array: its element class and its cells. *)
Record TypedArray := mkTypedArray { elt : PointerArray; cells : list nat }.

(** Conversion of a stored number to the element type: modulo [2^bits]. *)
Definition wrap (P : PointerArray) (x : nat) : nat :=
  Z.to_nat (Z.of_nat x mod 2 ^ bits P).

(** [new P(length)]: [ToIndex] truncates the length and throws a
    RangeError when the result is negative or above [2^53 - 1]; the cells
    start at zero.  Exhaustion of memory is not modelled. *)
Definition new_TypedArray (P : PointerArray) (len : Q) : option TypedArray :=
  let n := Js.truncate len in
  if (0 <=? n)%Z && (n <=? 2 ^ 53 - 1)%Z
  then Some (mkTypedArray P (replicate (Z.to_nat n) 0))
  else None.

(** [a[i]] for an integer index: [None] is [undefined]. *)
Definition ta_get (a : TypedArray) (i : nat) : option nat := cells a !! i.

(** [a[i] = x]: converted to the element type; ignored outside the bounds. *)
Definition ta_set (a : TypedArray) (i x : nat) : TypedArray :=
  mkTypedArray (elt a) (<[i := wrap (elt a) x]> (cells a)).

End Typed.

Import Js Typed.

(** ** The cache *)

Section LRUCache.

(** Keys are compared as the [Map] compares them; both the key and the
    value type have their [undefined]: what a hole of [keys] or [values]
    reads as, and what a failed [get] returns. *)
Context {K V : Type} `{Countable K} `{Undefined K} `{Undefined V}.

Record LRUCache := mkLRUCache {
  capacity : nat;
  forward : TypedArray;
  backward : TypedArray;
  keys : list K;
  values : list V;
  items : gmap K nat;
  size : nat;
  head : nat;
  tail : nat
}.

Definition set_forward (c : LRUCache) (a : TypedArray) : LRUCache :=
  mkLRUCache (capacity c) a (backward c) (keys c) (values c) (items c) (size c) (head c) (tail c).
Definition set_backward (c : LRUCache) (a : TypedArray) : LRUCache :=
  mkLRUCache (capacity c) (forward c) a (keys c) (values c) (items c) (size c) (head c) (tail c).
Definition set_keys (c : LRUCache) (a : list K) : LRUCache :=
  mkLRUCache (capacity c) (forward c) (backward c) a (values c) (items c) (size c) (head c) (tail c).
Definition set_values (c : LRUCache) (a : list V) : LRUCache :=
  mkLRUCache (capacity c) (forward c) (backward c) (keys c) a (items c) (size c) (head c) (tail c).
Definition set_items (c : LRUCache) (m : gmap K nat) : LRUCache :=
  mkLRUCache (capacity c) (forward c) (backward c) (keys c) (values c) m (size c) (head c) (tail c).
Definition set_size (c : LRUCache) (n : nat) : LRUCache :=
  mkLRUCache (capacity c) (forward c) (backward c) (keys c) (values c) (items c) n (head c) (tail c).
Definition set_head (c : LRUCache) (p : nat) : LRUCache :=
  mkLRUCache (capacity c) (forward c) (backward c) (keys c) (values c) (items c) (size c) p (tail c).
Definition set_tail (c : LRUCache) (p : nat) : LRUCache :=
  mkLRUCache (capacity c) (forward c) (backward c) (keys c) (values c) (items c) (size c) (head c) p.

(** [LRUCache.prototype.clear] *)
Definition clear (c : LRUCache) : LRUCache :=
  let c := set_size c 0 in
  let c := set_head c 0 in
  let c := set_tail c 0 in
  set_items c ∅.

(** [function LRUCache(capacity)]: [None] when one of the array
    constructors throws, in which case [new] yields no instance.  The
    number [capacity] is kept as the natural number it then is. *)
Definition LRUCache_new (capacity : Q) : option LRUCache :=
  P ← getPointerArray capacity;
  fwd ← new_TypedArray P capacity;
  bwd ← new_TypedArray P capacity;
  ks ← new_Array capacity;
  vs ← new_Array capacity;
  Some (clear (mkLRUCache (Z.to_nat (truncate capacity)) fwd bwd ks vs ∅ 0 0 0)).

(** [LRUCache.prototype.splayOnTop] *)
Definition splayOnTop (c : LRUCache) (pointer : nat) : option LRUCache :=
  let oldHead := head c in
  if decide (head c = pointer) then Some c
  else
    c ← (if decide (tail c = pointer) then
           bp ← ta_get (backward c) pointer;
           Some (set_tail c bp)
         else
           fp ← ta_get (forward c) pointer;
           bp ← ta_get (backward c) pointer;
           Some (set_backward c (ta_set (backward c) fp bp)));
    bp ← ta_get (backward c) pointer;
    fp ← ta_get (forward c) pointer;
    let c := set_forward c (ta_set (forward c) bp fp) in
    let c := set_backward c (ta_set (backward c) oldHead pointer) in
    let c := set_head c pointer in
    Some (set_forward c (ta_set (forward c) pointer oldHead)).

(** [LRUCache.prototype.set] *)
Definition set (c : LRUCache) (key : K) (value : V) : option LRUCache :=
  match items c !! key with
  | Some existingPointer =>
      c ← splayOnTop c existingPointer;
      Some (set_values c (arr_set (values c) existingPointer value))
  | None =>
      '(pointer, c) ←
        (if decide (size c < capacity c) then
           Some (size c, set_size c (S (size c)))
         else
           let pointer := tail c in
           bp ← ta_get (backward c) pointer;
           let c := set_tail c bp in
           Some (pointer, set_items c (delete (arr_get (keys c) pointer) (items c))));
      let c := set_items c (<[key := pointer]> (items c)) in
      let c := set_keys c (arr_set (keys c) pointer key) in
      let c := set_values c (arr_set (values c) pointer value) in
      if decide (1 < size c) then
        let previousPointer := head c in
        let c := set_head c pointer in
        let c := set_backward c (ta_set (backward c) previousPointer pointer) in
        Some (set_forward c (ta_set (forward c) pointer previousPointer))
      else Some c
  end.

(** [LRUCache.prototype.has]: the cache comes back as it went in. *)
Definition has (c : LRUCache) (key : K) : LRUCache * bool :=
  (c, bool_decide (is_Some (items c !! key))).

(** [LRUCache.prototype.get]: [undefined] for a key that is not indexed. *)
Definition get (c : LRUCache) (key : K) : option (LRUCache * V) :=
  match items c !! key with
  | None => Some (c, undefined)
  | Some pointer =>
      c ← splayOnTop c pointer;
      Some (c, arr_get (values c) pointer)
  end.

(** [LRUCache.prototype.entries].  The closure of the iterator owns [i],
    [l] and [pointer]; its [keys], [values] and [forward] are the cache's
    own arrays (the cache never replaces them, it updates them in place),
    so [next] reads them from the cache it is run against. *)
Record Iterator := mkIterator { it_i : nat; it_l : nat; it_pointer : nat }.

Definition entries (c : LRUCache) : LRUCache * Iterator :=
  (c, mkIterator 0 (size c) (head c)).

(** One call of the iterator's [next]: [None] in the last component is
    [{done: true}], [Some (key, value)] is [{done: false, value: [key, value]}]. *)
Definition next (c : LRUCache) (it : Iterator)
  : option (LRUCache * Iterator * option (K * V)) :=
  if decide (it_l it ≤ it_i it) then Some (c, it, None)
  else
    let key := arr_get (keys c) (it_pointer it) in
    let value := arr_get (values c) (it_pointer it) in
    let i := S (it_i it) in
    pointer ← (if decide (i < it_l it) then ta_get (forward c) (it_pointer it)
               else Some (it_pointer it));
    Some (c, mkIterator i (it_l it) pointer, Some (key, value)).

(** Calling [next] until it reports [done], as [inspect] does; at most
    [fuel] calls. *)
Fixpoint drain (fuel : nat) (c : LRUCache) (it : Iterator)
  : option (LRUCache * Iterator * list (K * V)) :=
  match fuel with
  | 0 => None
  | S fuel =>
      '(c, it, step) ← next c it;
      match step with
      | None => Some (c, it, [])
      | Some e => '(c, it, es) ← drain fuel c it; Some (c, it, e :: es)
      end
  end.

(** The whole traversal of a fresh iterator: [size + 1] calls of [next]. *)
Definition to_list (c : LRUCache) : option (LRUCache * list (K * V)) :=
  let '(c, it) := entries c in
  '(c, _, es) ← drain (S (size c)) c it; Some (c, es).

End LRUCache.

Arguments LRUCache : clear implicits.
Arguments LRUCache K V {_ _}.
Arguments Iterator : clear implicits.

(** ** The recency list behind the arrays *)

(** The pairs of neighbours of a list of slots. *)
Fixpoint links (l : list nat) : list (nat * nat) :=
  match l with
  | a :: l' => match l' with b :: _ => (a, b) :: links l' | [] => [] end
  | [] => []
  end.

Arguments links : simpl never.

(** [a] points forward to [b], and [b] back to [a]. *)
Definition linked (F B : list nat) (ab : nat * nat) : Prop :=
  F !! ab.1 = Some ab.2 ∧ B !! ab.2 = Some ab.1.

Section Invariant.

Context {K V : Type} `{Countable K} `{Undefined K} `{Undefined V}.

(** [wf c L]: the live slots of [c], from the most to the least recently
    used, are [L].  They are the slots below [size]; [head] and [tail] are
    the two ends of [L] (both 0 in the empty cache), neighbours in [L] are
    linked both ways, the key index maps exactly the keys of the live slots
    to their slots, and every cell of the two pointer arrays is a slot. *)
Record wf (c : LRUCache K V) (L : list nat) : Prop := mkWf {
  wf_cap : 0 < capacity c;
  wf_fbits : (Z.of_nat (capacity c) ≤ 2 ^ bits (elt (forward c)))%Z;
  wf_bbits : (Z.of_nat (capacity c) ≤ 2 ^ bits (elt (backward c)))%Z;
  wf_flen : length (cells (forward c)) = capacity c;
  wf_blen : length (cells (backward c)) = capacity c;
  wf_klen : length (keys c) = capacity c;
  wf_vlen : length (values c) = capacity c;
  wf_frange : Forall (λ p, p < capacity c) (cells (forward c));
  wf_brange : Forall (λ p, p < capacity c) (cells (backward c));
  wf_size : size c ≤ capacity c;
  wf_perm : L ≡ₚ seq 0 (size c);
  wf_head : head c = default 0 (L !! 0);
  wf_tail : tail c = default 0 (last L);
  wf_chain : Forall (linked (cells (forward c)) (cells (backward c))) (links L);
  wf_items : ∀ k p, items c !! k = Some p ↔ p ∈ L ∧ keys c !! p = Some k
}.

(** The entry the iterator reads at a slot. *)
Definition entry (c : LRUCache K V) (p : nat) : K * V :=
  (arr_get (keys c) p, arr_get (values c) p).

(** A slot is live when some key is indexed at it. *)
Definition live (c : LRUCache K V) (p : nat) : Prop :=
  ∃ k, items c !! k = Some p.

(** The caches a program can hold: built by [new LRUCache(capacity)] with
    a positive capacity, then driven through the methods that change the
    cache ([has], [entries] and the iterator leave it as it is). *)
Inductive reachable : LRUCache K V → Prop :=
  | reach_new q c :
      (0 < q)%Q → LRUCache_new q = Some c → reachable c
  | reach_clear c :
      reachable c → reachable (clear c)
  | reach_set c k v c' :
      reachable c → set c k v = Some c' → reachable c'
  | reach_get c k c' v :
      reachable c → get c k = Some (c', v) → reachable c'
  | reach_splay c p c' :
      reachable c → live c p → splayOnTop c p = Some c' → reachable c'.

(** [k] is the key of the head entry. *)
Definition head_key (c : LRUCache K V) (k : K) : Prop :=
  items c !! k = Some (head c).

(** *** Sequences of [set] and [get], and the keys they touch *)

Inductive op := OpSet (k : K) (v : V) | OpGet (k : K).

(** Runs the operations in order.  [log] collects the touched keys, the
    latest first: the key of every [set], and the key of every [get] that
    finds its key. *)
Fixpoint run (c : LRUCache K V) (log : list K) (ops : list op)
  : option (LRUCache K V * list K) :=
  match ops with
  | [] => Some (c, log)
  | OpSet k v :: ops =>
      c' ← set c k v; run c' (k :: log) ops
  | OpGet k :: ops =>
      '(c', _) ← get c k;
      run c' (if (has c k).2 then k :: log else log) ops
  end.

(** The distinct keys of a log, each at its latest touch, latest first. *)
Fixpoint recency (log : list K) : list K :=
  match log with
  | [] => []
  | k :: log => k :: filter (λ x, x ≠ k) (recency log)
  end.

(** The [n] most recently touched distinct keys. *)
Definition most_recent (n : nat) (log : list K) : list K :=
  take n (recency log).

(** [get(k)] changes the order of the traversal: the traversal taken
    after it differs from the one taken before. *)
Definition get_changes_order (c : LRUCache K V) (k : K) : Prop :=
  ∃ c' v es es', get c k = Some (c', v) ∧ to_list c = Some (c, es) ∧
                 to_list c' = Some (c', es') ∧ es' ≠ es.

(** *** Capacities the specification calls invalid *)

(** Non-positive, non-integer, or beyond what the widest slot index
    (32 bits, slots [0 .. 2^32 - 1]) can address. *)
Definition invalid_capacity (q : Q) : Prop :=
  ¬ (0 < q)%Q ∨ is_integer q = false ∨ (inject_Z (2 ^ 32) < q)%Q.

End Invariant.

(** ** [inspect], and histories of operations *)

Section Inspect.

Context {K V : Type} `{Countable K} `{Undefined K} `{Undefined V}.

(** The [Map] that [inspect] fills is read in its iteration order, so it
    is kept as the list of its pairs in insertion order.  [m.set(k, v)]
    gives a key that is already there its new value where it stands, and
    appends a key that is new. *)
Fixpoint omap_set (m : list (K * V)) (k : K) (v : V) : list (K * V) :=
  match m with
  | [] => [(k, v)]
  | (k', v') :: m =>
      if decide (k' = k) then (k', v) :: m else (k', v') :: omap_set m k v
  end.

(** The [constructor] that an object answers. *)
Inductive Constructor := MapConstructor | LRUCacheConstructor.

(** The object [inspect] returns: a [Map] with an own [constructor]. *)
Record Proxy := mkProxy {
  proxy_entries : list (K * V);
  proxy_constructor : Constructor
}.

(** The loop of [inspect]:
    [while ((step = iterator.next(), !step.done)) proxy.set(...)],
    cut off after [fuel] calls of [next]. *)
Fixpoint inspect_loop (fuel : nat) (c : LRUCache K V) (it : Iterator)
    (proxy : list (K * V)) : option (LRUCache K V * Iterator * list (K * V)) :=
  match fuel with
  | 0 => None
  | S fuel =>
      '(c, it, step) ← next c it;
      match step with
      | None => Some (c, it, proxy)
      | Some (key, value) => inspect_loop fuel c it (omap_set proxy key value)
      end
  end.

(** [LRUCache.prototype.inspect] *)
Definition inspect (fuel : nat) (c : LRUCache K V)
  : option (LRUCache K V * Proxy) :=
  let proxy := [] in
  let '(c, iterator) := entries c in
  '(c, _, proxy) ← inspect_loop fuel c iterator proxy;
  Some (c, mkProxy proxy LRUCacheConstructor).

(** The value of the latest [set] of [k] in a history of operations, the
    latest operation first. *)
Fixpoint latest (history : list (@op K V)) (k : K) : option V :=
  match history with
  | [] => None
  | OpSet k' v :: history => if decide (k' = k) then Some v else latest history k
  | OpGet _ :: history => latest history k
  end.

End Inspect.

Arguments Proxy : clear implicits.

(** ** Concrete JavaScript values, for the examples *)

Inductive jsval := JUndefined | JNum (n : Z) | JStr (s : string).

Global Instance jsval_eq_dec : EqDecision jsval.
Proof. solve_decision. Defined.

Global Instance jsval_countable : Countable jsval.
Proof.
  refine (inj_countable'
    (λ v, match v with
          | JUndefined => inl ()
          | JNum n => inr (inl n)
          | JStr s => inr (inr s)
          end)
    (λ x, match x with
          | inl _ => JUndefined
          | inr (inl n) => JNum n
          | inr (inr s) => JStr s
          end) _).
  by intros [].
Defined.

Global Instance jsval_undefined : Undefined jsval := JUndefined.

(** What [new LRUCache(3)] and [new LRUCache(0)] build. *)
Definition empty3 : LRUCache jsval jsval :=
  {| capacity := 3;
     forward := mkTypedArray Uint8Array [0; 0; 0];
     backward := mkTypedArray Uint8Array [0; 0; 0];
     keys := [JUndefined; JUndefined; JUndefined];
     values := [JUndefined; JUndefined; JUndefined];
     items := ∅; size := 0; head := 0; tail := 0 |}.

Definition empty0 : LRUCache jsval jsval :=
  {| capacity := 0;
     forward := mkTypedArray Uint8Array [];
     backward := mkTypedArray Uint8Array [];
     keys := []; values := [];
     items := ∅; size := 0; head := 0; tail := 0 |}.

(** The scenario of the specification: capacity 3, then
    [set(a,1); set(b,2); set(c,3)], and the cache it leaves. *)
Definition scenario : list (op (K:=jsval) (V:=jsval)) :=
  [OpSet (JStr "a") (JNum 1); OpSet (JStr "b") (JNum 2); OpSet (JStr "c") (JNum 3)].

Definition abc : LRUCache jsval jsval :=
  {| capacity := 3;
     forward := mkTypedArray Uint8Array [0; 0; 1];
     backward := mkTypedArray Uint8Array [1; 2; 0];
     keys := [JStr "a"; JStr "b"; JStr "c"];
     values := [JNum 1; JNum 2; JNum 3];
     items := {[ JStr "a" := 0; JStr "b" := 1; JStr "c" := 2 ]};
     size := 3; head := 2; tail := 0 |}.

(** The scenario continued: [get(a)], then [set(d,4)]. *)
Definition scenario_more : list (op (K:=jsval) (V:=jsval)) :=
  scenario ++ [OpGet (JStr "a"); OpSet (JStr "d") (JNum 4)].

(** What [new LRUCache(1)] builds. *)
Definition empty1 : LRUCache jsval jsval :=
  {| capacity := 1;
     forward := mkTypedArray Uint8Array [0];
     backward := mkTypedArray Uint8Array [0];
     keys := [JUndefined]; values := [JUndefined];
     items := ∅; size := 0; head := 0; tail := 0 |}.

(** The scenario's cache after [get(a)], and then after [set(d,4)]. *)
Definition abc_a : LRUCache jsval jsval :=
  {| capacity := 3;
     forward := mkTypedArray Uint8Array [2; 0; 1];
     backward := mkTypedArray Uint8Array [1; 2; 0];
     keys := [JStr "a"; JStr "b"; JStr "c"];
     values := [JNum 1; JNum 2; JNum 3];
     items := {[ JStr "a" := 0; JStr "b" := 1; JStr "c" := 2 ]};
     size := 3; head := 0; tail := 1 |}.

Definition adc : LRUCache jsval jsval :=
  {| capacity := 3;
     forward := mkTypedArray Uint8Array [2; 0; 1];
     backward := mkTypedArray Uint8Array [1; 2; 0];
     keys := [JStr "a"; JStr "d"; JStr "c"];
     values := [JNum 1; JNum 4; JNum 3];
     items := {[ JStr "a" := 0; JStr "d" := 1; JStr "c" := 2 ]};
     size := 3; head := 1; tail := 2 |}.

(** * Proofs *)

(** ** Neighbours in a list of slots *)

Lemma links_cons (a b : nat) (l : list nat) :
  links (a :: b :: l) = (a, b) :: links (b :: l).
Proof. reflexivity. Qed.

Lemma links_cons_head (p h : nat) (X : list nat) :
  X !! 0 = Some h → links (p :: X) = (p, h) :: links X.
Proof. destruct X as [|x X]; [done|]. intros [= ->]. reflexivity. Qed.

Lemma links_app (X : list nat) (q a : nat) (Y : list nat) :
  last X = Some q →
  links (X ++ a :: Y) = links X ++ (q, a) :: links (a :: Y).
Proof.
  induction X as [|x [|y X] IH]; intros Hq.
  - done.
  - injection Hq as ->. reflexivity.
  - change (links ((x :: y :: X) ++ a :: Y))
      with ((x, y) :: links ((y :: X) ++ a :: Y)).
    rewrite IH; [reflexivity|]. exact Hq.
Qed.

Lemma links_snoc (X : list nat) (q a : nat) :
  last X = Some q → links (X ++ [a]) = links X ++ [(q, a)].
Proof. intros Hq. by rewrite (links_app X q a []). Qed.

Lemma links_elem (l : list nat) (a b : nat) :
  (a, b) ∈ links l → a ∈ l ∧ b ∈ l.
Proof.
  induction l as [|x [|y l] IH]; [by intros ?%elem_of_nil..|].
  rewrite links_cons, elem_of_cons. intros [[= -> ->]|Hin].
  - split; [left|right; left].
  - destruct (IH Hin). split; by right.
Qed.

(** In a list without repetitions no slot points forward to the first
    slot, none points back to the last, and none to itself. *)
Lemma links_target_not_first (l : list nat) (a b h : nat) :
  NoDup l → l !! 0 = Some h → (a, b) ∈ links l → b ≠ h.
Proof.
  destruct l as [|x [|y l]]; [by intros _ _ ?%elem_of_nil..|].
  intros Hnd [= ->]. rewrite links_cons, elem_of_cons.
  apply NoDup_cons in Hnd as [Hx Hnd].
  intros [[= -> ->]|Hin] ->.
  - apply Hx. left.
  - apply Hx. by apply links_elem in Hin as [_ ?].
Qed.

Lemma links_source_not_last (l : list nat) (a b q : nat) :
  NoDup l → last l = Some q → (a, b) ∈ links l → a ≠ q.
Proof.
  induction l as [|x [|y l] IH]; [by intros _ _ ?%elem_of_nil..|].
  intros Hnd Hq. rewrite links_cons, elem_of_cons.
  apply NoDup_cons in Hnd as [Hx Hnd].
  change (last (y :: l) = Some q) in Hq.
  intros [[= -> ->]|Hin].
  - intros ->. apply Hx. by apply last_Some_elem_of.
  - by apply IH.
Qed.

Lemma linked_frame (F B F' B' : list nat) (a b : nat) :
  F' !! a = F !! a → B' !! b = B !! b →
  linked F B (a, b) → linked F' B' (a, b).
Proof. unfold linked; simpl. by intros -> ->. Qed.

(** Links survive stores that miss their sources in [forward] and their
    targets in [backward]. *)
Lemma links_frame (F B F' B' : list nat) (l : list nat) :
  (∀ a b, (a, b) ∈ links l → F' !! a = F !! a ∧ B' !! b = B !! b) →
  Forall (linked F B) (links l) → Forall (linked F' B') (links l).
Proof.
  intros Hfr. rewrite !Forall_forall. intros Hl [a b] Hin.
  destruct (Hfr a b Hin). eapply linked_frame; eauto.
Qed.

(** ** Typed arrays and arrays *)

Lemma wrap_small (P : PointerArray) (x : nat) :
  (Z.of_nat x < 2 ^ bits P)%Z → wrap P x = x.
Proof. intros Hx. unfold wrap. rewrite Z.mod_small; lia. Qed.

Lemma Forall_lt_insert (l : list nat) (i x n : nat) :
  x < n → Forall (λ p, p < n) l → Forall (λ p, p < n) (<[i := x]> l).
Proof. intros Hx Hl. by apply Forall_insert. Qed.

Lemma Forall_lt_lookup (l : list nat) (i x n : nat) :
  Forall (λ p, p < n) l → l !! i = Some x → x < n.
Proof. intros Hl Hi. by apply (Forall_lookup_1 (λ p, p < n) l i x). Qed.

Section ArrayFacts.

Context {A : Type} `{Undefined A}.

Lemma arr_set_in (arr : list A) (i : nat) (x : A) :
  i < length arr → arr_set arr i x = <[i := x]> arr.
Proof. intros Hi. unfold arr_set. by rewrite decide_True. Qed.

Lemma arr_get_Some (arr : list A) (i : nat) (x : A) :
  arr !! i = Some x → arr_get arr i = x.
Proof. unfold arr_get. by intros ->. Qed.

Lemma arr_get_lookup (arr : list A) (i : nat) :
  i < length arr → arr !! i = Some (arr_get arr i).
Proof.
  intros Hi. unfold arr_get.
  by destruct (lookup_lt_is_Some_2 arr i Hi) as [x ->].
Qed.

End ArrayFacts.

Section ListFacts.
Context {A : Type} `{EqDecision A}.

Lemma filter_ne_notin (p : A) (l : list A) :
  p ∉ l → filter (λ x, x ≠ p) l = l.
Proof.
  induction l as [|x l IH]; [done|].
  rewrite not_elem_of_cons. intros [Hx Hl].
  rewrite filter_cons_True by congruence. by rewrite IH.
Qed.

Lemma filter_ne_middle (X : list A) (p : A) (Y : list A) :
  NoDup (X ++ p :: Y) → filter (λ x, x ≠ p) (X ++ p :: Y) = X ++ Y.
Proof.
  intros Hnd. apply NoDup_app in Hnd as (_ & HX & Hnd).
  apply NoDup_cons in Hnd as [HY _].
  rewrite filter_app, filter_cons_False by (intros ?; done).
  rewrite !filter_ne_notin; [done|done|].
  intros Hp. apply (HX p Hp). left.
Qed.
End ListFacts.

(** ** The invariant is kept *)

Section Proofs.
Context {K V : Type} `{Countable K} `{Undefined K} `{Undefined V}.

Lemma wf_NoDup (c : LRUCache K V) L : wf c L → NoDup L.
Proof. intros Hwf. rewrite (wf_perm _ _ Hwf). apply NoDup_seq. Qed.

Lemma wf_slot_lt (c : LRUCache K V) L p : wf c L → p ∈ L → p < size c.
Proof.
  intros Hwf Hp. rewrite (wf_perm _ _ Hwf) in Hp.
  apply elem_of_seq in Hp. lia.
Qed.

Lemma splayOnTop_head (c : LRUCache K V) p : head c = p → splayOnTop c p = Some c.
Proof. intros Hp. unfold splayOnTop. by rewrite decide_True. Qed.


Lemma splay_inner (c : LRUCache K V) (X : list nat) (p : nat) (M2 : list nat) (h q : nat) :
  wf c (X ++ p :: M2) → X !! 0 = Some h → last X = Some q →
  ∃ c', splayOnTop c p = Some c' ∧ wf c' (p :: X ++ M2) ∧
        capacity c' = capacity c ∧ keys c' = keys c ∧ values c' = values c ∧
        items c' = items c ∧ size c' = size c.
Proof.
  intros Hwf HX0 Hq. pose proof (wf_NoDup _ _ Hwf) as Hnd.
  assert (h ∈ X) as HhX by (by eapply list_elem_of_lookup_2).
  assert (q ∈ X) as HqX by (by apply last_Some_elem_of).
  assert (p ∉ X) as HpX.
  { apply NoDup_app in Hnd as (_ & Hd & _). intros Hp. apply (Hd p Hp). left. }
  assert (h < size c ∧ q < size c ∧ p < size c) as (Hhs & Hqs & Hps).
  { split_and!; apply (wf_slot_lt _ _ _ Hwf); set_solver. }
  destruct Hwf as [Hcap Hfb Hbb Hfl Hbl Hkl Hvl Hfr Hbr Hsz Hperm Hhd Htl Hch Hit].
  destruct c as [cap [PF F] [PB B] ks vs its sz hd tl]; simpl in *.
  assert (0 < length X) as HXlen by (by eapply lookup_lt_Some).
  rewrite lookup_app_l, HX0 in Hhd by done.
  simpl in Hhd. subst hd.
  rewrite last_app in Htl. 
  rewrite (links_app X q p M2 Hq) in Hch.
  apply Forall_app in Hch as [HchX Hch].
  apply Forall_cons in Hch as [[Hqp Hpq] Hch]. simpl in Hqp, Hpq.
  assert (h ≠ p) as Hhp by (intros ->; done).
  assert (NoDup X) as HndX by (by apply NoDup_app in Hnd as (? & _ & _)).
  destruct (lookup_lt_is_Some_2 F p) as [g Hg]; [lia|].
  assert (g < cap) as Hgc by exact (Forall_lt_lookup F p g cap Hfr Hg).
  unfold splayOnTop; simpl. rewrite decide_False by done.
  destruct M2 as [|n M2].
  - simpl in Htl. subst tl. rewrite decide_True by done.
    unfold ta_get; simpl. rewrite Hpq; simpl. rewrite Hpq; simpl.
    rewrite Hg; simpl. eexists; split; [reflexivity|].
    split; [|done]. rewrite app_nil_r in *.
    constructor; unfold ta_set; simpl; rewrite ?wrap_small by lia;
      rewrite ?length_insert; try done.
    + by repeat apply Forall_lt_insert; try lia.
    + by repeat apply Forall_lt_insert; try lia.
    + by rewrite <- Hperm, Permutation_cons_append.
    + by rewrite last_cons, Hq.
    + rewrite (links_cons_head p h X HX0). apply Forall_cons. split.
      * split; simpl; apply list_lookup_insert_eq; rewrite ?length_insert; lia.
      * revert HchX. apply links_frame. intros a b Hab.
        pose proof (links_source_not_last X a b q HndX Hq Hab).
        pose proof (links_target_not_first X a b h HndX HX0 Hab).
        apply links_elem in Hab as [Ha Hb].
        rewrite !list_lookup_insert_ne; [done|congruence..].
    + intros k p0. rewrite Hit, !elem_of_cons, !elem_of_app, ?elem_of_cons, ?elem_of_nil. tauto.
  - assert (tl ≠ p) as Htlp.
    { rewrite last_cons_cons in Htl.
      destruct (last (n :: M2)) as [t|] eqn:Ht; [|by apply last_None in Ht].
      simpl in Htl. subst tl. apply last_Some_elem_of in Ht. intros ->.
      apply NoDup_app in Hnd as (_ & _ & Hnd).
      apply NoDup_cons in Hnd as [Hnd _]. done. }
    rewrite decide_False by done.
    rewrite links_cons in Hch. apply Forall_cons in Hch as [[Hpn Hnp] Hch].
    simpl in Hpn, Hnp. rewrite Hpn in Hg. injection Hg as <-.
    assert (n ≠ p ∧ (n ∉ X) ∧ NoDup (n :: M2)) as (Hn1 & Hn2 & HndM).
    { apply NoDup_app in Hnd as (? & Hd & Hnd).
      apply NoDup_cons in Hnd as [Hnd ?]. split_and!; try done.
      - intros ->. apply Hnd. left.
      - intros Hn. apply (Hd n Hn). right; left. }
    unfold ta_get; simpl. rewrite Hpn, Hpq; simpl.
    rewrite wrap_small by lia.
    rewrite list_lookup_insert_ne by done. rewrite Hpq; simpl. rewrite Hpn; simpl.
    eexists; split; [reflexivity|]. split; [|done].
    constructor; unfold ta_set; simpl; rewrite ?wrap_small by lia;
      rewrite ?length_insert; try done.
    + by repeat apply Forall_lt_insert; try lia.
    + by repeat apply Forall_lt_insert; try lia.
    + rewrite <- Hperm. by rewrite Permutation_middle.
    + rewrite Htl. f_equal.
      rewrite (last_cons p (X ++ n :: M2)), last_app, !last_cons_cons.
      by destruct (last (n :: M2)) eqn:Ht; [|apply last_None in Ht].
    + rewrite (links_cons_head p h) by (by rewrite lookup_app_l).
      rewrite (links_app X q n M2 Hq).
      apply Forall_cons; split; [|apply Forall_app; split; [|apply Forall_cons; split]].
      * split; simpl; apply list_lookup_insert_eq; rewrite ?length_insert; lia.
      * revert HchX. apply links_frame. intros a b Hab.
        pose proof (links_source_not_last X a b q HndX Hq Hab).
        pose proof (links_target_not_first X a b h HndX HX0 Hab).
        apply links_elem in Hab as [Ha Hb].
        rewrite !list_lookup_insert_ne; [done|congruence..].
      * split; simpl.
        -- rewrite list_lookup_insert_ne by congruence.
           apply list_lookup_insert_eq. lia.
        -- rewrite list_lookup_insert_ne by congruence.
           apply list_lookup_insert_eq. lia.
      * revert Hch. apply links_frame. intros a b Hab.
        pose proof (links_target_not_first (n :: M2) a b n HndM eq_refl Hab).
        apply links_elem in Hab as [Ha Hb].
        assert (∀ x, x ∈ n :: M2 → (x ∉ X) ∧ x ≠ p) as Hdisj.
        { intros x Hx. apply NoDup_app in Hnd as (_ & Hd & Hnd).
          apply NoDup_cons in Hnd as [Hnd _]. split.
          - intros HxX. apply (Hd x HxX). by right.
          - intros ->. done. }
        destruct (Hdisj a Ha), (Hdisj b Hb).
        rewrite !list_lookup_insert_ne; [done|congruence..].
    + intros k p0. rewrite Hit, !elem_of_cons, !elem_of_app, ?elem_of_cons, ?elem_of_nil. tauto.
Qed.

Lemma splayOnTop_wf (c : LRUCache K V) L p :
  wf c L → p ∈ L →
  ∃ c', splayOnTop c p = Some c' ∧ wf c' (p :: filter (λ x, x ≠ p) L) ∧
        capacity c' = capacity c ∧ keys c' = keys c ∧ values c' = values c ∧
        items c' = items c ∧ size c' = size c.
Proof.
  intros Hwf Hp. pose proof (wf_NoDup _ _ Hwf) as Hnd.
  destruct (decide (head c = p)) as [Hh|Hh].
  - exists c. split; [by apply splayOnTop_head|]. split; [|done].
    destruct L as [|h M]; [by apply elem_of_nil in Hp|].
    rewrite (wf_head _ _ Hwf) in Hh. simpl in Hh. subst h.
    rewrite (filter_ne_middle [] p M Hnd). done.
  - destruct L as [|h M]; [by apply elem_of_nil in Hp|].
    pose proof (wf_head _ _ Hwf) as Hhead. simpl in Hhead.
    apply elem_of_cons in Hp as [->|Hp]; [congruence|].
    apply list_elem_of_split in Hp as (M1 & M2 & ->).
    change (h :: M1 ++ p :: M2) with ((h :: M1) ++ p :: M2) in *.
    destruct (last (h :: M1)) as [q|] eqn:Hq; [|by apply last_None in Hq].
    rewrite (filter_ne_middle (h :: M1) p M2 Hnd).
    by apply (splay_inner c (h :: M1) p M2 h q).
Qed.

Lemma wf_set_values (c : LRUCache K V) L vs :
  wf c L → length vs = capacity c → wf (set_values c vs) L.
Proof. intros [] Hvs. by constructor. Qed.

(** The key index after a store of a new key at a slot outside the list. *)
Lemma items_insert_fresh (its : gmap K nat) (ks : list K) (L : list nat) k p :
  (∀ k' p', its !! k' = Some p' ↔ p' ∈ L ∧ ks !! p' = Some k') →
  its !! k = None → p ∉ L → p < length ks →
  ∀ k' p', <[k := p]> its !! k' = Some p' ↔
           p' ∈ p :: L ∧ <[p := k]> ks !! p' = Some k'.
Proof.
  intros Hit Hk Hp Hlen k' p'. rewrite elem_of_cons.
  destruct (decide (k' = k)) as [->|Hk'].
  - rewrite lookup_insert_eq. split.
    + intros [= <-]. split; [by left|]. by apply list_lookup_insert_eq.
    + intros [[->|Hin] Hks]; [done|].
      rewrite list_lookup_insert_ne in Hks by (intros ->; done).
      assert (its !! k = Some p') as Hc by (by apply Hit). congruence.
  - rewrite lookup_insert_ne by done. rewrite Hit. split.
    + intros [Hin Hks]. split; [by right|].
      rewrite list_lookup_insert_ne; [done|]. by intros ->.
    + intros [[->|Hin] Hks].
      * rewrite list_lookup_insert_eq in Hks by done. congruence.
      * split; [done|].
        rewrite list_lookup_insert_ne in Hks; [done|]. by intros ->.
Qed.

(** The key index after the eviction of the last slot. *)
Lemma items_delete_last (its : gmap K nat) (ks : list K) (M : list nat) t :
  (∀ k' p', its !! k' = Some p' ↔ p' ∈ M ++ [t] ∧ ks !! p' = Some k') →
  NoDup (M ++ [t]) → t < length ks →
  ∀ k' p', delete (arr_get ks t) its !! k' = Some p' ↔
           p' ∈ M ∧ ks !! p' = Some k'.
Proof.
  intros Hit Hnd Hlen k' p'.
  pose proof (arr_get_lookup ks t Hlen) as Hkt.
  assert (t ∉ M) as HtM.
  { apply NoDup_app in Hnd as (_ & Hd & _). intros Ht. apply (Hd t Ht). left. }
  assert (its !! arr_get ks t = Some t) as Hitt.
  { apply Hit. split; [|done]. apply elem_of_app. right. left. }
  destruct (decide (k' = arr_get ks t)) as [->|Hk'].
  - rewrite lookup_delete_eq. split; [done|]. intros [Hin Hks].
    assert (its !! arr_get ks t = Some p') as Hc.
    { apply Hit. split; [|done]. apply elem_of_app. by left. }
    congruence.
  - rewrite lookup_delete_ne by done. rewrite Hit, elem_of_app, list_elem_of_singleton.
    split; [|tauto]. intros [[Hin| ->] Hks]; [done|congruence].
Qed.

Lemma wf_items_slot (c : LRUCache K V) L k p :
  wf c L → items c !! k = Some p → p ∈ L ∧ keys c !! p = Some k ∧ p < capacity c.
Proof.
  intros Hwf Hk. apply (wf_items _ _ Hwf) in Hk as [Hp Hks].
  split_and!; [done..|].
  pose proof (wf_slot_lt _ _ _ Hwf Hp). pose proof (wf_size _ _ Hwf). lia.
Qed.

(** [set] of a key that is indexed: its slot moves to the front and takes
    the value. *)
Lemma set_existing_wf (c : LRUCache K V) L k v p :
  wf c L → items c !! k = Some p →
  ∃ c', set c k v = Some c' ∧ wf c' (p :: filter (λ x, x ≠ p) L) ∧
        capacity c' = capacity c ∧ size c' = size c ∧ items c' = items c ∧
        keys c' = keys c ∧ values c' = <[p := v]> (values c).
Proof.
  intros Hwf Hk. destruct (wf_items_slot _ _ _ _ Hwf Hk) as (Hp & Hks & Hpc).
  destruct (splayOnTop_wf c L p Hwf Hp) as (c1 & Hs & Hwf1 & Hc & Hk1 & Hv & Hi & Hz).
  unfold set. rewrite Hk, Hs. simpl.
  rewrite arr_set_in by (rewrite Hv, (wf_vlen _ _ Hwf); lia).
  eexists; split; [reflexivity|]. split.
  - apply wf_set_values; [done|].
    by rewrite length_insert, (wf_vlen _ _ Hwf1).
  - simpl. by rewrite Hv.
Qed.

(** [set] of a new key below capacity: the next unused slot is linked in
    at the front. *)
Lemma set_fresh_wf (c : LRUCache K V) L k v :
  wf c L → items c !! k = None → size c < capacity c →
  ∃ c', set c k v = Some c' ∧ wf c' (size c :: L) ∧
        capacity c' = capacity c ∧ size c' = S (size c) ∧
        items c' = <[k := size c]> (items c) ∧
        keys c' = <[size c := k]> (keys c) ∧
        values c' = <[size c := v]> (values c).
Proof.
  intros Hwf Hk Hlt. pose proof (wf_NoDup _ _ Hwf) as Hnd.
  assert (size c ∉ L) as HsL.
  { intros Hin. apply (wf_slot_lt _ _ _ Hwf) in Hin. lia. }
  assert (∀ x, x ∈ L → x < size c) as HL by (intros x; apply (wf_slot_lt _ _ _ Hwf)).
  pose proof (Permutation_length (wf_perm _ _ Hwf)) as Hlen. rewrite length_seq in Hlen.
  destruct Hwf as [Hcap Hfb Hbb Hfl Hbl Hkl Hvl Hfr Hbr Hsz Hperm Hhd Htl Hch Hit].
  destruct c as [cap [PF F] [PB B] ks vs its sz hd tl]; simpl in *.
  unfold set; simpl. rewrite Hk. rewrite decide_True by done. simpl.
  rewrite !arr_set_in by lia.
  assert (sz :: L ≡ₚ seq 0 (S sz)) as Hperm'.
  { rewrite seq_S, <- Hperm. simpl. by rewrite Permutation_cons_append. }
  destruct L as [|h M].
  - simpl in *. subst sz hd tl. rewrite decide_False by lia.
    eexists; split; [reflexivity|]. split; [|done].
    constructor; simpl; rewrite ?length_insert; try done; try lia.
    by apply items_insert_fresh; [|done|done|lia].
  - simpl in Hhd, Hlen. subst hd. rewrite decide_True by lia.
    assert (h < sz) as Hh by (apply HL; left).
    eexists; split; [reflexivity|]. split; [|done].
    constructor; unfold ta_set; simpl; rewrite ?wrap_small by lia;
      rewrite ?length_insert; try done; try lia.
    + by apply Forall_lt_insert; [lia|].
    + by apply Forall_lt_insert; [lia|].
    + rewrite links_cons. apply Forall_cons. split.
      * split; simpl; apply list_lookup_insert_eq; lia.
      * revert Hch. apply links_frame. intros a b Hab.
        pose proof (links_target_not_first (h :: M) a b h Hnd eq_refl Hab).
        apply links_elem in Hab as [Ha Hb]. apply HL in Ha.
        rewrite !list_lookup_insert_ne; [done|lia..].
    + by apply items_insert_fresh; [|done|done|lia].
Qed.

(** In a full cache the list of live slots ends with [tail]. *)
Lemma wf_full_last (c : LRUCache K V) L :
  wf c L → 0 < size c → ∃ M, L = M ++ [tail c].
Proof.
  intros Hwf Hsz.
  pose proof (Permutation_length (wf_perm _ _ Hwf)) as Hlen.
  rewrite length_seq in Hlen.
  destruct (last L) as [t|] eqn:Ht.
  - rewrite (wf_tail _ _ Hwf), Ht. simpl. by apply last_Some.
  - apply last_None in Ht. subst L. simpl in Hlen. lia.
Qed.

(** [set] of a new key in a full cache: the slot of the tail entry is taken
    out of the key index, takes the new entry and moves to the front. *)
Lemma set_evict_wf (c : LRUCache K V) M k v :
  wf c (M ++ [tail c]) → items c !! k = None → size c = capacity c →
  ∃ c', set c k v = Some c' ∧ wf c' (tail c :: M) ∧
        capacity c' = capacity c ∧ size c' = size c ∧
        items c' = <[k := tail c]> (delete (arr_get (keys c) (tail c)) (items c)) ∧
        keys c' = <[tail c := k]> (keys c) ∧
        values c' = <[tail c := v]> (values c).
Proof.
  intros Hwf Hk Hfull. pose proof (wf_NoDup _ _ Hwf) as Hnd.
  assert (∀ x, x ∈ M ++ [tail c] → x < size c) as HL
    by (intros x; apply (wf_slot_lt _ _ _ Hwf)).
  pose proof (Permutation_length (wf_perm _ _ Hwf)) as Hlen.
  rewrite length_seq, length_app in Hlen. simpl in Hlen.
  destruct Hwf as [Hcap Hfb Hbb Hfl Hbl Hkl Hvl Hfr Hbr Hsz Hperm Hhd Htl Hch Hit].
  destruct c as [cap [PF F] [PB B] ks vs its sz hd t]; simpl in *. subst sz.
  assert (t < cap) as Ht by (apply HL, elem_of_app; right; left).
  assert (t ∉ M) as HtM.
  { apply NoDup_app in Hnd as (_ & Hd & _). intros Hin. apply (Hd t Hin). left. }
  assert (NoDup M) as HndM by (by apply NoDup_app in Hnd as (? & _ & _)).
  pose proof (items_delete_last its ks M t Hit Hnd ltac:(lia)) as Hit'.
  assert (delete (arr_get ks t) its !! k = None) as Hk'.
  { apply lookup_delete_None. by right. }
  unfold set; simpl. rewrite Hk. rewrite decide_False by lia.
  unfold ta_get; simpl.
  destruct M as [|h M'].
  - simpl in *. assert (cap = 1) as -> by lia.
    assert (t = 0) as -> by lia.
    destruct (lookup_lt_is_Some_2 B 0) as [b Hb]; [lia|].
    pose proof (Forall_lt_lookup B 0 b 1 Hbr Hb). assert (b = 0) as -> by lia.
    rewrite Hb. simpl. rewrite !arr_set_in by lia.
    try rewrite decide_False by lia.
    eexists; split; [reflexivity|]. split; [|done].
    constructor; simpl; rewrite ?length_insert; try done.
    by apply items_insert_fresh; [|done|done|lia].
  - set (M := h :: M') in *.
    assert (M !! 0 = Some h) as HM0 by done.
    destruct (last M) as [q|] eqn:Hq; [|by apply last_None in Hq].
    rewrite (links_snoc M q t Hq) in Hch.
    apply Forall_app in Hch as [HchM Hch].
    apply Forall_cons in Hch as [[Hqt Htq] _]. simpl in Hqt, Htq.
    assert (h < cap ∧ q < cap) as [Hh Hqc].
    { split; apply HL, elem_of_app; left; [by left|by apply last_Some_elem_of]. }
    assert (hd = h) as -> by (rewrite Hhd; done).
    rewrite Htq. simpl. rewrite !arr_set_in by lia.
    rewrite decide_True by (subst M; simpl in Hlen; lia).
    eexists; split; [reflexivity|]. split; [|done].
    constructor; unfold ta_set; simpl; rewrite ?wrap_small by lia;
      rewrite ?length_insert; try done; try lia.
    + by apply Forall_lt_insert; [lia|].
    + by apply Forall_lt_insert; [lia|].
    + rewrite <- Hperm. by rewrite Permutation_cons_append.
    + by rewrite Hq.
    + rewrite (links_cons_head t h M HM0). apply Forall_cons. split.
      * split; simpl; apply list_lookup_insert_eq; lia.
      * revert HchM. apply links_frame. intros a b Hab.
        pose proof (links_target_not_first M a b h HndM HM0 Hab).
        apply links_elem in Hab as [Ha Hb].
        rewrite !list_lookup_insert_ne; [done|congruence..].
    + by apply items_insert_fresh; [|done|done|lia].
Qed.

(** *** The constructor *)

Lemma is_integer_spec (q : Q) :
  is_integer q = true → Qnum q = (truncate q * Zpos (Qden q))%Z.
Proof.
  unfold is_integer, truncate. destruct q as [n d]; simpl.
  intros Hm%Z.eqb_eq. apply Z.mod_divide in Hm as [m ->]; [|lia].
  by rewrite Z.quot_mul.
Qed.

Lemma truncate_pos (q : Q) :
  is_integer q = true → (0 < q)%Q → (0 < truncate q)%Z.
Proof.
  intros Hi Hq. apply is_integer_spec in Hi.
  unfold Qlt in Hq. simpl in Hq. nia.
Qed.

Lemma getPointerArray_fits (q : Q) (P : PointerArray) :
  is_integer q = true → getPointerArray q = Some P →
  (truncate q ≤ 2 ^ bits P)%Z.
Proof.
  intros Hi. apply is_integer_spec in Hi. unfold getPointerArray.
  repeat case_match; intros [= <-];
    match goal with
    | Hle : Qle_bool _ _ = true |- _ =>
        apply Qle_bool_iff in Hle; unfold Qle in Hle; simpl in Hle
    end; simpl; rewrite Hi in *; nia.
Qed.

Lemma getPointerArray_is_Some (q : Q) :
  is_integer q = true → (truncate q < 2 ^ 32)%Z → is_Some (getPointerArray q).
Proof.
  intros Hi Hlt. apply is_integer_spec in Hi. unfold getPointerArray.
  repeat case_match; try done.
  match goal with
  | Hle : Qle_bool _ (inject_Z (2 ^ 32 - 1)) = false |- _ =>
      apply not_true_iff_false in Hle; exfalso; apply Hle;
      apply Qle_bool_iff; unfold Qle; simpl; rewrite Hi; nia
  end.
Qed.

(** Construction succeeds exactly on the integers from 0 to [2^32 - 1]. *)
Lemma LRUCache_new_is_Some (q : Q) :
  is_Some (LRUCache_new (K:=K) (V:=V) q) ↔
  is_integer q = true ∧ (0 ≤ truncate q < 2 ^ 32)%Z.
Proof.
  unfold LRUCache_new, new_Array, array_length, new_TypedArray. split.
  - intros [c Hc]. repeat case_match; simplify_option_eq.
    repeat match goal with
    | Hb : _ && _ = true |- _ => apply andb_true_iff in Hb as [? ?]
    end. split; [done|lia].
  - intros [Hi [Hge H32]].
    destruct (getPointerArray_is_Some q Hi H32) as [P ->]. simpl.
    rewrite Hi. simpl.
    replace (0 <=? truncate q)%Z with true by (symmetry; lia).
    replace (truncate q <=? 2 ^ 53 - 1)%Z with true by (symmetry; lia).
    replace (truncate q <? 2 ^ 32)%Z with true by (symmetry; lia).
    simpl. eauto.
Qed.

Lemma LRUCache_new_wf (q : Q) (c : LRUCache K V) :
  (0 < q)%Q → LRUCache_new q = Some c → wf c [].
Proof.
  intros Hq Hc.
  destruct (proj1 (LRUCache_new_is_Some q)) as [Hi [Hge H32]]; [by eexists|].
  pose proof (truncate_pos q Hi Hq) as Hpos.
  unfold LRUCache_new, new_Array, array_length, new_TypedArray in Hc.
  destruct (getPointerArray q) as [P|] eqn:HP; [|done]. simpl in Hc.
  pose proof (getPointerArray_fits q P Hi HP) as Hfit.
  rewrite Hi in Hc. simpl in Hc.
  replace (0 <=? truncate q)%Z with true in Hc by (symmetry; lia).
  replace (truncate q <=? 2 ^ 53 - 1)%Z with true in Hc by (symmetry; lia).
  replace (truncate q <? 2 ^ 32)%Z with true in Hc by (symmetry; lia).
  simpl in Hc. injection Hc as <-.
  constructor; simpl; rewrite ?length_replicate; try done; try lia.
  - apply Forall_replicate. lia.
  - apply Forall_replicate. lia.
  - intros k p. rewrite lookup_empty, elem_of_nil. split; [done|by intros [[] _]].
Qed.

Lemma clear_wf (c : LRUCache K V) L : wf c L → wf (clear c) [].
Proof.
  intros []. constructor; simpl; try done; try lia.
  intros k p. rewrite lookup_empty, elem_of_nil. split; [done|by intros [[] _]].
Qed.

(** *** [get], and every reachable cache *)

Lemma get_absent (c : LRUCache K V) k :
  items c !! k = None → get c k = Some (c, undefined).
Proof. intros Hk. unfold get. by rewrite Hk. Qed.

Lemma get_present_wf (c : LRUCache K V) L k p :
  wf c L → items c !! k = Some p →
  ∃ c', get c k = Some (c', arr_get (values c) p) ∧
        wf c' (p :: filter (λ x, x ≠ p) L) ∧
        capacity c' = capacity c ∧ size c' = size c ∧ items c' = items c ∧
        keys c' = keys c ∧ values c' = values c.
Proof.
  intros Hwf Hk. destruct (wf_items_slot _ _ _ _ Hwf Hk) as (Hp & _ & _).
  destruct (splayOnTop_wf c L p Hwf Hp) as (c1 & Hs & Hwf1 & Hc & Hk1 & Hv & Hi & Hz).
  exists c1. unfold get. rewrite Hk, Hs. simpl. by rewrite Hv.
Qed.

Lemma set_wf (c : LRUCache K V) L k v :
  wf c L → ∃ c' L', set c k v = Some c' ∧ wf c' L' ∧ capacity c' = capacity c.
Proof.
  intros Hwf. destruct (items c !! k) as [p|] eqn:Hk.
  - destruct (set_existing_wf c L k v p Hwf Hk) as (c' & ? & ? & ? & _). eauto.
  - destruct (decide (size c < capacity c)) as [Hlt|Hge].
    + destruct (set_fresh_wf c L k v Hwf Hk Hlt) as (c' & ? & ? & ? & _). eauto.
    + pose proof (wf_size _ _ Hwf). pose proof (wf_cap _ _ Hwf).
      destruct (wf_full_last c L Hwf) as [M ->]; [lia|].
      destruct (set_evict_wf c M k v Hwf Hk) as (c' & ? & ? & ? & _); [lia|]. eauto.
Qed.

Lemma get_wf (c : LRUCache K V) L k :
  wf c L → ∃ c' v L', get c k = Some (c', v) ∧ wf c' L' ∧ capacity c' = capacity c.
Proof.
  intros Hwf. destruct (items c !! k) as [p|] eqn:Hk.
  - destruct (get_present_wf c L k p Hwf Hk) as (c' & ? & ? & ? & _). eauto 6.
  - exists c, undefined, L. split; [by apply get_absent|done].
Qed.

Lemma reachable_wf (c : LRUCache K V) : reachable c → ∃ L, wf c L.
Proof.
  induction 1 as [q c Hq Hc|c _ [L HL]|c k v c' _ [L HL] Hs
                 |c k c' v _ [L HL] Hg|c p c' _ [L HL] [k Hk] Hs].
  - exists []. by eapply LRUCache_new_wf.
  - exists []. by eapply clear_wf.
  - destruct (set_wf c L k v HL) as (c1 & L' & Hs' & ? & _).
    rewrite Hs in Hs'. injection Hs' as <-. eauto.
  - destruct (get_wf c L k HL) as (c1 & v1 & L' & Hg' & ? & _).
    rewrite Hg in Hg'. injection Hg' as <- <-. eauto.
  - destruct (wf_items_slot _ _ _ _ HL Hk) as (Hp & _ & _).
    destruct (splayOnTop_wf c L p HL Hp) as (c1 & Hs' & ? & _).
    rewrite Hs in Hs'. injection Hs' as <-. eauto.
Qed.

(** *** The traversal *)

Lemma next_done (c : LRUCache K V) (i n p : nat) :
  n ≤ i → next c (mkIterator i n p) = Some (c, mkIterator i n p, None).
Proof. intros Hi. unfold next. cbn [it_l it_i]. by rewrite decide_True. Qed.

Lemma next_last (c : LRUCache K V) (i n p : nat) :
  S i = n →
  next c (mkIterator i n p) = Some (c, mkIterator n n p, Some (entry c p)).
Proof.
  intros <-. unfold next. cbn [it_l it_i it_pointer].
  rewrite decide_False by lia. by rewrite decide_False by lia.
Qed.

Lemma next_step (c : LRUCache K V) (i n p b : nat) :
  S i < n → cells (forward c) !! p = Some b →
  next c (mkIterator i n p) = Some (c, mkIterator (S i) n b, Some (entry c p)).
Proof.
  intros Hi Hb. unfold next, ta_get. cbn [it_l it_i it_pointer].
  rewrite decide_False by lia. rewrite decide_True by lia. by rewrite Hb.
Qed.

Lemma drain_links (c : LRUCache K V) (l : list nat) (p i n fuel : nat) :
  Forall (linked (cells (forward c)) (cells (backward c))) (links (p :: l)) →
  i + S (length l) = n → S (length l) < fuel →
  drain fuel c (mkIterator i n p) =
    Some (c, mkIterator n n (default p (last l)), map (entry c) (p :: l)).
Proof.
  revert p i fuel. induction l as [|b l IH]; intros p i fuel Hch Hn Hfuel.
  - destruct fuel as [|[|fuel]]; [simpl in Hfuel; lia..|].
    simpl in Hn. cbn [drain].
    rewrite (next_last c i n p) by lia. cbn [mbind option_bind].
    by rewrite next_done.
  - destruct fuel as [|fuel]; [lia|]. simpl in Hn, Hfuel.
    rewrite links_cons in Hch. apply Forall_cons in Hch as [[Hpb _] Hch].
    simpl in Hpb. cbn [drain].
    rewrite (next_step c i n p b) by (done || lia). cbn [mbind option_bind].
    rewrite (IH b (S i) fuel Hch) by lia. cbn [mbind option_bind].
    do 3 f_equal. rewrite last_cons. by destruct (last l).
Qed.

Lemma to_list_wf (c : LRUCache K V) L :
  wf c L → to_list c = Some (c, map (entry c) L).
Proof.
  intros Hwf.
  pose proof (Permutation_length (wf_perm _ _ Hwf)) as Hlen.
  rewrite length_seq in Hlen.
  unfold to_list, entries. destruct L as [|h M].
  - simpl in Hlen. rewrite <- Hlen. cbn [drain]. by rewrite next_done.
  - rewrite (wf_head _ _ Hwf). cbn [lookup list_lookup default].
    rewrite (drain_links c M h 0 (size c)); [done|..].
    + apply (wf_chain _ _ Hwf).
    + simpl in Hlen. lia.
    + simpl in Hlen. lia.
Qed.

(** *** Entries, slot by slot *)

Lemma entry_frame (c c' : LRUCache K V) :
  keys c' = keys c → values c' = values c → entry c' = entry c.
Proof. intros Hk Hv. unfold entry. by rewrite Hk, Hv. Qed.

Lemma entry_insert (c c' : LRUCache K V) p k v :
  keys c' = <[p := k]> (keys c) → values c' = <[p := v]> (values c) →
  p < length (keys c) → p < length (values c) →
  entry c' p = (k, v) ∧ ∀ x, x ≠ p → entry c' x = entry c x.
Proof.
  intros Hk Hv Hpk Hpv. unfold entry, arr_get. rewrite Hk, Hv. split.
  - by rewrite !list_lookup_insert_eq.
  - intros x Hx. by rewrite !list_lookup_insert_ne.
Qed.

Lemma map_entry_ext (c c' : LRUCache K V) (l : list nat) :
  (∀ x, x ∈ l → entry c' x = entry c x) → map (entry c') l = map (entry c) l.
Proof.
  intros Hl. apply map_ext_in. intros x Hx. by apply Hl, list_elem_of_In.
Qed.

(** The key read at a live slot is the one key indexed there. *)
Lemma wf_key_at (c : LRUCache K V) L x :
  wf c L → x ∈ L → items c !! arr_get (keys c) x = Some x.
Proof.
  intros Hwf Hx. apply (wf_items _ _ Hwf). split; [done|].
  apply arr_get_lookup. rewrite (wf_klen _ _ Hwf).
  pose proof (wf_slot_lt _ _ _ Hwf Hx). pose proof (wf_size _ _ Hwf). lia.
Qed.

Lemma wf_key_of_slot (c : LRUCache K V) L k p :
  wf c L → items c !! k = Some p → arr_get (keys c) p = k.
Proof.
  intros Hwf Hk. destruct (wf_items_slot _ _ _ _ Hwf Hk) as (_ & Hks & _).
  by apply arr_get_Some.
Qed.

(** Dropping the entry of [k] from the entries is dropping its slot. *)
Lemma filter_entries (c : LRUCache K V) L k p (l : list nat) :
  wf c L → items c !! k = Some p → (∀ x, x ∈ l → x ∈ L) →
  filter (λ e, e.1 ≠ k) (map (entry c) l) = map (entry c) (filter (λ x, x ≠ p) l).
Proof.
  intros Hwf Hk. induction l as [|x l IH]; intros Hl; [done|].
  assert (x ∈ L) as Hx by (apply Hl; left).
  assert (∀ y, y ∈ l → y ∈ L) as Hl' by (intros y Hy; apply Hl; by right).
  pose proof (wf_key_at c L x Hwf Hx) as Hkx.
  pose proof (wf_key_of_slot c L k p Hwf Hk) as Hkp.
  cbn [map]. destruct (decide (x = p)) as [->|Hxp].
  - rewrite !filter_cons_False by (simpl; intros ?; done). by apply IH.
  - rewrite !filter_cons_True; [|done|].
    + cbn [map]. by rewrite IH.
    + simpl. intros Heq. rewrite Heq in Hkx. congruence.
Qed.

Lemma has_true (c : LRUCache K V) L k :
  wf c L → (has c k).2 = true ↔ k ∈ map (arr_get (keys c)) L.
Proof.
  intros Hwf. unfold has. cbn [snd]. rewrite bool_decide_eq_true.
  rewrite list_elem_of_fmap. split.
  - intros [p Hp]. destruct (wf_items_slot _ _ _ _ Hwf Hp) as (Hin & Hks & _).
    exists p. split; [|done]. symmetry. by apply arr_get_Some.
  - intros (p & -> & Hp). exists p. by eapply wf_key_at.
Qed.

(** *** The most recently touched keys *)

Lemma recency_NoDup (log : list K) : NoDup (recency log).
Proof.
  induction log as [|k log IH]; [constructor|].
  cbn [recency]. apply NoDup_cons. split.
  - rewrite list_elem_of_filter. by intros [? _].
  - by apply NoDup_filter.
Qed.

Lemma not_elem_of_take_le (k : K) (R : list K) (n n' : nat) :
  n' ≤ n → k ∉ take n R → k ∉ take n' R.
Proof.
  intros Hn Hk Hin. apply Hk.
  apply elem_of_take in Hin as (i & Hi & Hlt).
  apply elem_of_take. exists i. split; [done|lia].
Qed.

Lemma take_filter_notin (k : K) (R : list K) (n : nat) :
  k ∉ take n R → take n (filter (λ x, x ≠ k) R) = take n R.
Proof.
  revert n. induction R as [|x R IH]; intros [|n]; try done.
  cbn [take]. rewrite not_elem_of_cons. intros [Hx Hk].
  rewrite filter_cons_True by done. cbn [take]. by rewrite IH.
Qed.

(** Touching a key outside the [n] most recent pushes it in front of the
    [n - 1] most recent. *)
Lemma take_touch_notin (k : K) (R : list K) (n : nat) :
  k ∉ take (S n) R →
  take (S n) (k :: filter (λ x, x ≠ k) R) = k :: take n R.
Proof.
  intros Hk. cbn [take]. f_equal. apply take_filter_notin.
  by apply (not_elem_of_take_le k R (S n) n); [lia|].
Qed.

(** Touching one of the [n] most recent keys moves it to their front. *)
Lemma take_touch_in (k : K) (R : list K) (n : nat) :
  NoDup R → k ∈ take n R →
  take n (k :: filter (λ x, x ≠ k) R) = k :: filter (λ x, x ≠ k) (take n R).
Proof.
  destruct n as [|n]; [by intros _ ?%elem_of_nil|].
  cbn [take]. intros Hnd Hk. f_equal.
  revert n Hnd Hk. induction R as [|x R IH]; intros n Hnd Hk.
  - by apply elem_of_nil in Hk.
  - apply NoDup_cons in Hnd as [Hx Hnd]. cbn [take] in *.
    destruct (decide (x = k)) as [->|Hxk].
    + rewrite !filter_cons_False by (intros ?; done).
      rewrite !filter_ne_notin; [done| |done].
      intros Hin. apply Hx. by apply (subseteq_take n R).
    + apply elem_of_cons in Hk as [->|Hk]; [done|].
      rewrite !filter_cons_True by done.
      destruct n as [|n]; [by apply elem_of_nil in Hk|].
      cbn [take]. f_equal. by apply IH.
Qed.

Lemma filter_keys (c : LRUCache K V) L k p (l : list nat) :
  wf c L → items c !! k = Some p → (∀ x, x ∈ l → x ∈ L) →
  filter (λ y, y ≠ k) (map (arr_get (keys c)) l)
  = map (arr_get (keys c)) (filter (λ x, x ≠ p) l).
Proof.
  intros Hwf Hk. induction l as [|x l IH]; intros Hl; [done|].
  assert (x ∈ L) as Hx by (apply Hl; left).
  assert (∀ y, y ∈ l → y ∈ L) as Hl' by (intros y Hy; apply Hl; by right).
  pose proof (wf_key_at c L x Hwf Hx) as Hkx.
  pose proof (wf_key_of_slot c L k p Hwf Hk) as Hkp.
  cbn [map]. destruct (decide (x = p)) as [->|Hxp].
  - rewrite !filter_cons_False by (simpl; intros ?; done). by apply IH.
  - rewrite !filter_cons_True; [|done|].
    + cbn [map]. by rewrite IH.
    + intros Heq. rewrite Heq in Hkx. congruence.
Qed.

Lemma map_keys_insert (ks : list K) (p : nat) (k : K) (l : list nat) :
  p ∉ l → map (arr_get (<[p := k]> ks)) l = map (arr_get ks) l.
Proof.
  intros Hp. apply map_ext_in. intros x Hx%list_elem_of_In.
  unfold arr_get. rewrite list_lookup_insert_ne; [done|]. by intros ->.
Qed.

Lemma arr_get_insert (ks : list K) (p : nat) (k : K) :
  p < length ks → arr_get (<[p := k]> ks) p = k.
Proof. intros Hp. unfold arr_get. by rewrite list_lookup_insert_eq. Qed.

(** One [set] keeps the resident keys equal to the most recent ones. *)
Lemma set_recent (c : LRUCache K V) L k v (log : list K) :
  wf c L → map (arr_get (keys c)) L = most_recent (capacity c) log →
  ∃ c' L', set c k v = Some c' ∧ wf c' L' ∧ capacity c' = capacity c ∧
           map (arr_get (keys c')) L' = most_recent (capacity c') (k :: log).
Proof.
  unfold most_recent. intros Hwf Hrec.
  pose proof (recency_NoDup log) as HndR.
  pose proof (wf_cap _ _ Hwf) as Hcap.
  pose proof (Permutation_length (wf_perm _ _ Hwf)) as Hlen.
  rewrite length_seq in Hlen.
  destruct (items c !! k) as [p|] eqn:Hk.
  - destruct (set_existing_wf c L k v p Hwf Hk) as (c' & Hs & Hwf' & Hc & _ & _ & Hks & _).
    exists c', (p :: filter (λ x, x ≠ p) L). split_and!; [done..|].
    rewrite Hc, Hks. cbn [map recency].
    rewrite (wf_key_of_slot c L k p Hwf Hk).
    rewrite <- (filter_keys c L k p L Hwf Hk) by done.
    rewrite Hrec. symmetry. apply take_touch_in; [done|].
    rewrite <- Hrec. apply (has_true c L k Hwf).
    unfold has. cbn [snd]. apply bool_decide_eq_true. by eexists.
  - assert (k ∉ take (capacity c) (recency log)) as Hnotin.
    { rewrite <- Hrec. intros Hin%(has_true c L k Hwf).
      unfold has in Hin. cbn [snd] in Hin. apply bool_decide_eq_true in Hin as [? ?].
      congruence. }
    destruct (capacity c) as [|n] eqn:Hn; [lia|].
    destruct (decide (size c < capacity c)) as [Hlt|Hge].
    + destruct (set_fresh_wf c L k v Hwf Hk Hlt) as (c' & Hs & Hwf' & Hc & _ & _ & Hks & _).
      exists c', (size c :: L). split_and!; [done|done|congruence|].
      rewrite Hc, Hks, Hn. cbn [map recency].
      rewrite arr_get_insert by (rewrite (wf_klen _ _ Hwf); lia).
      rewrite map_keys_insert.
      2:{ intros Hin%(wf_slot_lt _ _ _ Hwf). lia. }
      rewrite take_touch_notin by done. f_equal. rewrite Hrec.
      assert (length (recency log) ≤ n) as HlenR.
      { apply (f_equal length) in Hrec. rewrite length_map, length_take in Hrec. lia. }
      by rewrite !take_ge by lia.
    + pose proof (wf_size _ _ Hwf).
      destruct (wf_full_last c L Hwf) as [M ->]; [lia|].
      destruct (set_evict_wf c M k v Hwf Hk) as (c' & Hs & Hwf' & Hc & _ & _ & Hks & _); [lia|].
      pose proof (wf_NoDup _ _ Hwf) as Hnd.
      assert (tail c ∉ M) as HtM.
      { apply NoDup_app in Hnd as (_ & Hd & _). intros Hin. apply (Hd _ Hin). left. }
      exists c', (tail c :: M). split_and!; [done|done|congruence|].
      rewrite Hc, Hks, Hn. cbn [map recency].
      rewrite arr_get_insert.
      2:{ rewrite (wf_klen _ _ Hwf).
          assert (tail c < size c) by (apply (wf_slot_lt _ _ _ Hwf), elem_of_app; right; left).
          lia. }
      rewrite map_keys_insert by done.
      rewrite take_touch_notin by done. f_equal.
      rewrite length_app in Hlen. simpl in Hlen.
      rewrite map_app in Hrec.
      apply (f_equal (take n)) in Hrec.
      rewrite take_app_length' in Hrec by (rewrite length_map; lia).
      rewrite take_take in Hrec. by replace (n `min` S n) with n in Hrec by lia.
Qed.

(** One [get] does too; it touches its key when the key is resident. *)
Lemma get_recent (c : LRUCache K V) L k (log : list K) :
  wf c L → map (arr_get (keys c)) L = most_recent (capacity c) log →
  ∃ c' v L', get c k = Some (c', v) ∧ wf c' L' ∧ capacity c' = capacity c ∧
           map (arr_get (keys c')) L'
           = most_recent (capacity c') (if (has c k).2 then k :: log else log).
Proof.
  unfold most_recent. intros Hwf Hrec.
  pose proof (recency_NoDup log) as HndR.
  destruct (items c !! k) as [p|] eqn:Hk.
  - destruct (get_present_wf c L k p Hwf Hk) as (c' & Hs & Hwf' & Hc & _ & _ & Hks & _).
    assert ((has c k).2 = true) as Hhas.
    { unfold has. cbn [snd]. apply bool_decide_eq_true. by eexists. }
    exists c', (arr_get (values c) p), (p :: filter (λ x, x ≠ p) L).
    split_and!; [done..|].
    rewrite Hhas, Hc, Hks. cbn [map recency].
    rewrite (wf_key_of_slot c L k p Hwf Hk).
    rewrite <- (filter_keys c L k p L Hwf Hk) by done.
    rewrite Hrec. symmetry. apply take_touch_in; [done|].
    rewrite <- Hrec. by apply (has_true c L k Hwf).
  - exists c, undefined, L. split_and!; [by apply get_absent|done..|].
    unfold has. cbn [snd]. rewrite bool_decide_eq_false_2; [done|].
    rewrite Hk. by intros [? ?].
Qed.

Lemma run_recent (ops : list op) (c : LRUCache K V) L (log : list K) :
  wf c L → map (arr_get (keys c)) L = most_recent (capacity c) log →
  ∃ c' L' log', run c log ops = Some (c', log') ∧ wf c' L' ∧
                capacity c' = capacity c ∧
                map (arr_get (keys c')) L' = most_recent (capacity c') log'.
Proof.
  revert c L log. induction ops as [|[k v|k] ops IH]; intros c L log Hwf Hrec.
  - exists c, L, log. by split_and!.
  - destruct (set_recent c L k v log Hwf Hrec) as (c1 & L1 & Hs & Hwf1 & Hc1 & Hrec1).
    destruct (IH c1 L1 (k :: log) Hwf1 Hrec1) as (c' & L' & log' & Hr & ? & ? & ?).
    exists c', L', log'. cbn [run]. rewrite Hs. cbn [mbind option_bind].
    split_and!; [done|done|congruence|done].
  - destruct (get_recent c L k log Hwf Hrec) as (c1 & v1 & L1 & Hg & Hwf1 & Hc1 & Hrec1).
    destruct (IH c1 L1 _ Hwf1 Hrec1) as (c' & L' & log' & Hr & ? & ? & ?).
    exists c', L', log'. cbn [run]. rewrite Hg. cbn [mbind option_bind].
    split_and!; [done|done|congruence|done].
Qed.

Lemma has_false (c : LRUCache K V) k :
  (has c k).2 = false ↔ items c !! k = None.
Proof.
  unfold has. cbn [snd]. rewrite bool_decide_eq_false.
  rewrite <- eq_None_not_Some. done.
Qed.

Lemma has_true_items (c : LRUCache K V) k :
  (has c k).2 = true ↔ ∃ p, items c !! k = Some p.
Proof. unfold has. cbn [snd]. by rewrite bool_decide_eq_true. Qed.

Lemma reachable_run (ops : list op) (c c' : LRUCache K V) (log log' : list K) :
  reachable c → run c log ops = Some (c', log') → reachable c'.
Proof.
  revert c log. induction ops as [|[k v|k] ops IH]; intros c log Hc Hrun.
  - by injection Hrun as <- _.
  - cbn [run] in Hrun. destruct (set c k v) as [c1|] eqn:Hs; [|done].
    cbn [mbind option_bind] in Hrun. eapply IH; [|done]. by eapply reach_set.
  - cbn [run] in Hrun. destruct (get c k) as [[c1 v1]|] eqn:Hg; [|done].
    cbn [mbind option_bind] in Hrun. eapply IH; [|done]. by eapply reach_get.
Qed.

(** After [set] the key is indexed at the front slot, which holds the
    pair. *)
Lemma set_stores (c : LRUCache K V) L k v :
  wf c L →
  ∃ c' L' p, set c k v = Some c' ∧ wf c' (p :: L') ∧ items c' !! k = Some p ∧
             entry c' p = (k, v).
Proof.
  intros Hwf. pose proof (wf_size _ _ Hwf) as Hsz.
  pose proof (wf_klen _ _ Hwf) as Hkl. pose proof (wf_vlen _ _ Hwf) as Hvl.
  destruct (items c !! k) as [p|] eqn:Hk.
  - destruct (set_existing_wf c L k v p Hwf Hk)
      as (c' & Hs & Hwf' & Hc & _ & Hit & Hks & Hvs).
    destruct (wf_items_slot _ _ _ _ Hwf Hk) as (_ & Hkp & Hpc).
    exists c', (filter (λ x, x ≠ p) L), p. split_and!; [done|done|congruence|].
    unfold entry, arr_get. rewrite Hks, Hvs, Hkp.
    by rewrite list_lookup_insert_eq by lia.
  - destruct (decide (size c < capacity c)) as [Hlt|Hge].
    + destruct (set_fresh_wf c L k v Hwf Hk Hlt)
        as (c' & Hs & Hwf' & Hc & _ & Hit & Hks & Hvs).
      exists c', L, (size c). split_and!; [done|done| |].
      * by rewrite Hit, lookup_insert_eq.
      * by apply (entry_insert c c' (size c) k v Hks Hvs); lia.
    + pose proof (wf_cap _ _ Hwf).
      destruct (wf_full_last c L Hwf) as [M ->]; [lia|].
      destruct (set_evict_wf c M k v Hwf Hk)
        as (c' & Hs & Hwf' & Hc & _ & Hit & Hks & Hvs); [lia|].
      assert (tail c < size c)
        by (apply (wf_slot_lt _ _ _ Hwf), elem_of_app; right; left).
      exists c', M, (tail c). split_and!; [done|done| |].
      * by rewrite Hit, lookup_insert_eq.
      * by apply (entry_insert c c' (tail c) k v Hks Hvs); lia.
Qed.

(** * The claims *)

(** C1. For every sequence of [set] and [get] operations on a cache
    constructed with positive capacity, [size] never exceeds [capacity],
    and the resident keys (those for which [has] answers true) are exactly
    the [capacity] most recently touched distinct keys, a key being touched
    by every [set] of it and by every [get] that finds it. *)
Theorem resident_keys_most_recent (q : Q) (c : LRUCache K V) (ops : list op) :
  (0 < q)%Q → LRUCache_new q = Some c →
  ∃ c' log, run c [] ops = Some (c', log) ∧
            capacity c' = capacity c ∧
            size c' ≤ capacity c' ∧
            size c' = length (most_recent (capacity c') log) ∧
            ∀ k, (has c' k).2 = true ↔ k ∈ most_recent (capacity c') log.
Proof.
  intros Hq Hc. pose proof (LRUCache_new_wf q c Hq Hc) as Hwf.
  destruct (run_recent ops c [] [] Hwf) as (c' & L' & log & Hrun & Hwf' & Hcap & Hrec).
  { unfold most_recent. cbn [recency map]. by rewrite take_nil. }
  exists c', log. split_and!; [done|done|by apply (wf_size _ _ Hwf')| |].
  - rewrite <- Hrec, length_map.
    rewrite (Permutation_length (wf_perm _ _ Hwf')). by rewrite length_seq.
  - intros k. rewrite <- Hrec. by apply has_true.
Qed.

(** C2. When [size] equals [capacity] and [set] is called with a key that
    is not present, [set] succeeds; the entry at [tail], which is the last
    entry of the traversal, is evicted: [has] of its key is false
    afterwards, its slot holds the new entry and is indexed under the new
    key, and the traversal is the new entry followed by the old traversal
    without its last entry. *)
Theorem set_full_evicts_tail (c : LRUCache K V) (k : K) (v : V) :
  reachable c → size c = capacity c → (has c k).2 = false →
  ∃ c' es, set c k v = Some c' ∧
           to_list c = Some (c, es ++ [entry c (tail c)]) ∧
           (has c (entry c (tail c)).1).2 = true ∧
           (has c' (entry c (tail c)).1).2 = false ∧
           items c' !! k = Some (tail c) ∧
           entry c' (tail c) = (k, v) ∧
           size c' = size c ∧ capacity c' = capacity c ∧
           to_list c' = Some (c', (k, v) :: es).
Proof.
  intros [L Hwf]%reachable_wf Hfull Hk%has_false.
  pose proof (wf_cap _ _ Hwf) as Hcap.
  pose proof (wf_klen _ _ Hwf) as Hkl. pose proof (wf_vlen _ _ Hwf) as Hvl.
  destruct (wf_full_last c L Hwf) as [M ->]; [lia|].
  destruct (set_evict_wf c M k v Hwf Hk Hfull)
    as (c' & Hs & Hwf' & Hc & Hsz & Hit & Hks & Hvs).
  assert (tail c ∈ M ++ [tail c]) as Ht by (apply elem_of_app; right; left).
  pose proof (wf_slot_lt _ _ _ Hwf Ht) as Htlt.
  pose proof (wf_key_at c _ _ Hwf Ht) as Hkt.
  pose proof (wf_NoDup _ _ Hwf) as Hnd.
  assert (tail c ∉ M) as HtM.
  { apply NoDup_app in Hnd as (_ & Hd & _). intros Hin. apply (Hd _ Hin). left. }
  destruct (entry_insert c c' (tail c) k v Hks Hvs) as [He Hother]; [lia..|].
  exists c', (map (entry c) M). split_and!; try done.
  - by rewrite (to_list_wf c _ Hwf), map_app.
  - apply has_true_items. by eexists.
  - apply has_false. cbn [entry fst]. rewrite Hit.
    rewrite lookup_insert_ne by congruence. apply lookup_delete_eq.
  - by rewrite Hit, lookup_insert_eq.
  - rewrite (to_list_wf c' _ Hwf'). cbn [map]. rewrite He.
    do 3 f_equal. apply map_entry_ext. intros x Hx. apply Hother. by intros ->.
Qed.

(** C3. In every cache state, [set(k, v)] followed immediately by [get(k)]
    returns [v]. *)
Theorem set_get_roundtrip (c : LRUCache K V) (k : K) (v : V) :
  reachable c → ∃ c1 c2, set c k v = Some c1 ∧ get c1 k = Some (c2, v).
Proof.
  intros [L Hwf]%reachable_wf.
  destruct (set_stores c L k v Hwf) as (c1 & L1 & p & Hs & Hwf1 & Hk & He).
  destruct (get_present_wf c1 _ k p Hwf1 Hk) as (c2 & Hg & _).
  exists c1, c2. split; [done|]. rewrite Hg. do 2 f_equal.
  by injection He.
Qed.

(** What a promotion of the slot of [k] does to the traversal. *)
Lemma splay_entries (c c' : LRUCache K V) L k p :
  wf c L → items c !! k = Some p →
  keys c' = keys c → values c' = values c →
  map (entry c') (p :: filter (λ x, x ≠ p) L)
  = (k, arr_get (values c) p) :: filter (λ e, e.1 ≠ k) (map (entry c) L).
Proof.
  intros Hwf Hk Hks Hvs. rewrite (entry_frame c c' Hks Hvs). cbn [map].
  rewrite (filter_entries c L k p L Hwf Hk) by done.
  f_equal. unfold entry. by rewrite (wf_key_of_slot c L k p Hwf Hk).
Qed.

(** C4. For a key [k] present in the cache, after [get(k)] an immediately
    following traversal yields [k] with its value as the first pair,
    followed by the other entries in their previous order; its length is
    exactly [size]. *)
Theorem get_moves_to_front (c : LRUCache K V) (k : K) :
  reachable c → (has c k).2 = true →
  ∃ c' v es,
    to_list c = Some (c, es) ∧ (k, v) ∈ es ∧
    get c k = Some (c', v) ∧
    to_list c' = Some (c', (k, v) :: filter (λ e, e.1 ≠ k) es) ∧
    length ((k, v) :: filter (λ e, e.1 ≠ k) es) = size c'.
Proof.
  intros [L Hwf]%reachable_wf [p Hk]%has_true_items.
  destruct (get_present_wf c L k p Hwf Hk)
    as (c' & Hg & Hwf' & Hc & Hsz & Hit & Hks & Hvs).
  destruct (wf_items_slot _ _ _ _ Hwf Hk) as (Hp & Hkp & Hpc).
  pose proof (splay_entries c c' L k p Hwf Hk Hks Hvs) as Hes.
  exists c', (arr_get (values c) p), (map (entry c) L).
  split_and!; [by apply to_list_wf| |done| |].
  - apply list_elem_of_fmap. exists p. split; [|done].
    unfold entry. by rewrite (wf_key_of_slot c L k p Hwf Hk).
  - by rewrite (to_list_wf c' _ Hwf'), Hes.
  - rewrite <- Hes, length_map.
    rewrite (Permutation_length (wf_perm _ _ Hwf')). by rewrite length_seq.
Qed.

(** C5. [splayOnTop] of the live slot [p] of a key [k] returns the cache as
    it is when [p] is already [head]; in every case [p] is [head]
    afterwards, [size] is unchanged, and the traversal is the entry of [k]
    followed by the other entries in their previous order.  Hence after a
    first [get(k)] a second one changes nothing, and none changes anything
    when [k] is the head key. *)
Theorem splayOnTop_promotes (c : LRUCache K V) (k : K) (p : nat) :
  reachable c → items c !! k = Some p →
  ∃ c' v es,
    to_list c = Some (c, es) ∧ entry c p = (k, v) ∧
    splayOnTop c p = Some c' ∧
    (head c = p → c' = c) ∧
    head c' = p ∧ size c' = size c ∧
    to_list c' = Some (c', (k, v) :: filter (λ e, e.1 ≠ k) es) ∧
    get c k = Some (c', v) ∧ get c' k = Some (c', v).
Proof.
  intros [L Hwf]%reachable_wf Hk.
  destruct (wf_items_slot _ _ _ _ Hwf Hk) as (Hp & Hkp & Hpc).
  destruct (splayOnTop_wf c L p Hwf Hp)
    as (c' & Hs & Hwf' & Hc & Hks & Hvs & Hit & Hsz).
  pose proof (splay_entries c c' L k p Hwf Hk Hks Hvs) as Hes.
  assert (head c' = p) as Hhd by (by rewrite (wf_head _ _ Hwf')).
  exists c', (arr_get (values c) p), (map (entry c) L).
  split_and!; try done.
  - by apply to_list_wf.
  - unfold entry. by rewrite (wf_key_of_slot c L k p Hwf Hk).
  - intros Hh. rewrite (splayOnTop_head c p Hh) in Hs. by injection Hs.
  - by rewrite (to_list_wf c' _ Hwf'), Hes.
  - unfold get. rewrite Hk, Hs. cbn [mbind option_bind]. by rewrite Hvs.
  - unfold get. rewrite Hit, Hk, (splayOnTop_head c' p Hhd).
    cbn [mbind option_bind]. by rewrite Hvs.
Qed.

(** C6, as amended.  [has(k)] returns the cache exactly as it was.
    [get(k)] changes the order of a following traversal when [k] is
    present and is not the head key; when [k] is absent or is the head key
    it returns the cache exactly as it was. *)
Theorem has_pure_get_reorders (c : LRUCache K V) (k : K) :
  reachable c →
  (has c k).1 = c ∧
  (∀ p, items c !! k = Some p → p ≠ head c → get_changes_order c k) ∧
  ((has c k).2 = false ∨ head_key c k → ∃ v, get c k = Some (c, v)).
Proof.
  intros Hreach. destruct (reachable_wf c Hreach) as [L Hwf].
  split_and!; [done| |].
  - intros p Hk Hne.
    destruct (get_present_wf c L k p Hwf Hk)
      as (c' & Hg & Hwf' & Hc & Hsz & Hit & Hks & Hvs).
    pose proof (splay_entries c c' L k p Hwf Hk Hks Hvs) as Hes.
    exists c', (arr_get (values c) p), (map (entry c) L), (map (entry c') (p :: filter (λ x, x ≠ p) L)).
    split_and!; [done|by apply to_list_wf|by apply to_list_wf|].
    destruct (wf_items_slot _ _ _ _ Hwf Hk) as (Hp & _ & _).
    pose proof (wf_head _ _ Hwf) as Hhd.
    destruct L as [|h M]; [by apply elem_of_nil in Hp|].
    simpl in Hhd.
    rewrite Hes. cbn [map]. intros [= Hkey _]. apply Hne. rewrite Hhd.
    assert (items c !! k = Some h) as Hkh.
    { rewrite Hkey. apply (wf_key_at c _ h Hwf). left. }
    congruence.
  - intros [Hk%has_false|Hk].
    + exists undefined. by apply get_absent.
    + exists (arr_get (values c) (head c)). unfold get, head_key in *.
      rewrite Hk, splayOnTop_head by done. done.
Qed.

(** C7. For a key that is not present, [get] returns [undefined] without
    failing and returns the cache exactly as it was, so that a following
    traversal is the one it would have been before. *)
Theorem get_absent_unchanged (c : LRUCache K V) (k : K) :
  (has c k).2 = false →
  get c k = Some (c, undefined) ∧
  ∀ c' v, get c k = Some (c', v) → to_list c' = to_list c.
Proof.
  intros Hk%has_false. rewrite (get_absent c k Hk). split; [done|].
  by intros c' v [= <- _].
Qed.

(** C8, as amended.  The constructor fails, and creates no instance, for a
    negative capacity, for one that is not an integer, and for one of
    [2^32] or more. *)
Theorem LRUCache_new_rejects (q : Q) :
  (q < 0)%Q ∨ is_integer q = false ∨ (inject_Z (2 ^ 32) <= q)%Q →
  LRUCache_new (K:=K) (V:=V) q = None.
Proof.
  intros Hq. apply eq_None_not_Some. intros [Hi [Hge H32]]%LRUCache_new_is_Some.
  pose proof (is_integer_spec q Hi) as Hn.
  destruct Hq as [Hq|[Hq|Hq]]; [|congruence|].
  - unfold Qlt in Hq. simpl in Hq. nia.
  - unfold Qle in Hq. simpl in Hq. nia.
Qed.

(** C9. In every cache state [clear] sets [size], [head] and [tail] to 0
    and empties the key index; [keys], [values], [forward] and [backward]
    keep their contents; the traversal of the cleared cache is empty. *)
Theorem clear_resets (c : LRUCache K V) :
  size (clear c) = 0 ∧ head (clear c) = 0 ∧ tail (clear c) = 0 ∧
  items (clear c) = ∅ ∧
  keys (clear c) = keys c ∧ values (clear c) = values c ∧
  forward (clear c) = forward c ∧ backward (clear c) = backward c ∧
  capacity (clear c) = capacity c ∧
  to_list (clear c) = Some (clear c, []).
Proof. by split_and!. Qed.

Lemma next_cache (c c' : LRUCache K V) (it it' : Iterator) step :
  next c it = Some (c', it', step) → c' = c.
Proof.
  unfold next. intros Hn. case_decide; [by injection Hn|].
  destruct (if decide (S (it_i it) < it_l it) then _ else _); [|done].
  by injection Hn.
Qed.

Lemma drain_cache (fuel : nat) (c c' : LRUCache K V) (it it' : Iterator) es :
  drain fuel c it = Some (c', it', es) → c' = c.
Proof.
  revert c c' it it' es.
  induction fuel as [|fuel IH]; intros c c' it it' es Hd; [done|].
  cbn [drain] in Hd.
  destruct (next c it) as [[[c1 it1] [e|]]|] eqn:Hn;
    cbn [mbind option_bind] in Hd; try done; apply next_cache in Hn as ->.
  - destruct (drain fuel c it1) as [[[c2 it2] es2]|] eqn:Hd2; [|done].
    cbn [mbind option_bind] in Hd. injection Hd as <- _ _. by eapply IH.
  - by injection Hd.
Qed.

(** C10. [entries] and its iterator never change the cache: creating the
    iterator returns the cache as it was, and so does any run of it; a
    full run comes to its end, and two traversals in a row yield the same
    sequence. *)
Theorem entries_pure (c : LRUCache K V) :
  reachable c →
  (entries c).1 = c ∧
  (∀ fuel it c' it' es, drain fuel c it = Some (c', it', es) → c' = c) ∧
  ∃ it es,
    drain (S (size c)) c (entries c).2 = Some (c, it, es) ∧
    length es = size c ∧
    ('(c1, es1) ← to_list c; '(c2, es2) ← to_list c1; Some (c2, es1, es2))
    = Some (c, es, es).
Proof.
  intros [L Hwf]%reachable_wf. split_and!; [done|by intros; eapply drain_cache|].
  pose proof (to_list_wf c L Hwf) as Hl.
  unfold to_list in Hl. cbn [entries] in *.
  destruct (drain (S (size c)) c _) as [[[c1 it] es]|] eqn:Hd; [|done].
  cbn [mbind option_bind] in Hl. injection Hl as -> ->.
  exists it, (map (entry c) L). split_and!; [done| |].
  - rewrite length_map, (Permutation_length (wf_perm _ _ Hwf)). by rewrite length_seq.
  - rewrite (to_list_wf c L Hwf). cbn [mbind option_bind].
    by rewrite (to_list_wf c L Hwf).
Qed.

End Proofs.

(** * The claims on the scenario of the specification *)

Lemma empty3_new : LRUCache_new 3 = Some empty3.
Proof. vm_compute. reflexivity. Qed.

Lemma scenario_run :
  run empty3 [] scenario = Some (abc, [JStr "c"; JStr "b"; JStr "a"]).
Proof. vm_compute. reflexivity. Qed.

(** The rest of the scenario: [get(a)] returns 1 and brings [a] to the
    front; [set(d,4)] then evicts [b]. *)
Example scenario_continued :
  ('(c1, v) ← get abc (JStr "a");
   '(_, es1) ← to_list c1;
   c2 ← set c1 (JStr "d") (JNum 4);
   '(_, es2) ← to_list c2;
   Some (v, es1, es2, (has c2 (JStr "b")).2))
  = Some (JNum 1,
          [(JStr "a", JNum 1); (JStr "c", JNum 3); (JStr "b", JNum 2)],
          [(JStr "d", JNum 4); (JStr "a", JNum 1); (JStr "c", JNum 3)],
          false).
Proof. vm_compute. reflexivity. Qed.

(** With capacity 0 the first [set] already loads [backward[0]] from
    outside the array: such a cache is outside what is followed here. *)
Example set_capacity_zero : set empty0 (JStr "a") (JNum 1) = None.
Proof. reflexivity. Qed.

Lemma abc_reachable : reachable abc.
Proof.
  apply (reachable_run scenario empty3 abc [] [JStr "c"; JStr "b"; JStr "a"]).
  - by apply (reach_new 3 empty3); [|apply empty3_new].
  - apply scenario_run.
Qed.

Lemma resident_keys_most_recent_witness :
  (0 < 3)%Q ∧ LRUCache_new 3 = Some empty3 ∧
  ∃ c' log, run empty3 [] scenario_more = Some (c', log) ∧
            capacity c' = capacity empty3 ∧
            size c' ≤ capacity c' ∧
            size c' = length (most_recent (capacity c') log) ∧
            ∀ k, (has c' k).2 = true ↔ k ∈ most_recent (capacity c') log.
Proof.
  split; [reflexivity|]. split; [vm_compute; reflexivity|].
  apply (resident_keys_most_recent 3 empty3 scenario_more);
    [reflexivity|vm_compute; reflexivity].
Defined.

Lemma set_full_evicts_tail_witness :
  reachable abc ∧ size abc = capacity abc ∧ (has abc (JStr "d")).2 = false ∧
  ∃ c' es, set abc (JStr "d") (JNum 4) = Some c' ∧
           to_list abc = Some (abc, es ++ [entry abc (tail abc)]) ∧
           (has abc (entry abc (tail abc)).1).2 = true ∧
           (has c' (entry abc (tail abc)).1).2 = false ∧
           items c' !! JStr "d" = Some (tail abc) ∧
           entry c' (tail abc) = (JStr "d", JNum 4) ∧
           size c' = size abc ∧ capacity c' = capacity abc ∧
           to_list c' = Some (c', (JStr "d", JNum 4) :: es).
Proof.
  split; [apply abc_reachable|]. split; [reflexivity|].
  split; [vm_compute; reflexivity|].
  apply (set_full_evicts_tail abc (JStr "d") (JNum 4));
    [apply abc_reachable|reflexivity|vm_compute; reflexivity].
Defined.

Lemma set_get_roundtrip_witness :
  reachable abc ∧
  ∃ c1 c2, set abc (JStr "b") (JNum 7) = Some c1 ∧
           get c1 (JStr "b") = Some (c2, JNum 7).
Proof.
  split; [apply abc_reachable|].
  apply (set_get_roundtrip abc (JStr "b") (JNum 7)). apply abc_reachable.
Defined.

Lemma get_moves_to_front_witness :
  reachable abc ∧ (has abc (JStr "a")).2 = true ∧
  ∃ c' v es,
    to_list abc = Some (abc, es) ∧ (JStr "a", v) ∈ es ∧
    get abc (JStr "a") = Some (c', v) ∧
    to_list c' = Some (c', (JStr "a", v) :: filter (λ e, e.1 ≠ JStr "a") es) ∧
    length ((JStr "a", v) :: filter (λ e, e.1 ≠ JStr "a") es) = size c'.
Proof.
  split; [apply abc_reachable|]. split; [vm_compute; reflexivity|].
  apply (get_moves_to_front abc (JStr "a"));
    [apply abc_reachable|vm_compute; reflexivity].
Defined.

Lemma splayOnTop_promotes_witness :
  reachable abc ∧ items abc !! JStr "a" = Some 0 ∧
  ∃ c' v es,
    to_list abc = Some (abc, es) ∧ entry abc 0 = (JStr "a", v) ∧
    splayOnTop abc 0 = Some c' ∧
    (head abc = 0 → c' = abc) ∧
    head c' = 0 ∧ size c' = size abc ∧
    to_list c' = Some (c', (JStr "a", v) :: filter (λ e, e.1 ≠ JStr "a") es) ∧
    get abc (JStr "a") = Some (c', v) ∧ get c' (JStr "a") = Some (c', v).
Proof.
  split; [apply abc_reachable|]. split; [vm_compute; reflexivity|].
  apply (splayOnTop_promotes abc (JStr "a") 0);
    [apply abc_reachable|vm_compute; reflexivity].
Defined.

(** C6, as stated, fails on a key that is not in the cache: ["z"] is not
    the head key of the scenario's cache, and [get("z")] leaves the cache,
    hence the traversal, as it was. *)
Lemma get_absent_keeps_order :
  reachable abc ∧ ¬ head_key abc (JStr "z") ∧
  get abc (JStr "z") = Some (abc, JUndefined) ∧
  ¬ get_changes_order abc (JStr "z").
Proof.
  split; [apply abc_reachable|].
  assert (get abc (JStr "z") = Some (abc, JUndefined)) as Hg
    by (vm_compute; reflexivity).
  split; [by vm_compute|]. split; [done|].
  intros (c' & v & es & es' & Hg' & Hl & Hl' & Hne).
  rewrite Hg in Hg'. injection Hg' as <- _.
  rewrite Hl in Hl'. injection Hl' as ->. done.
Qed.

Lemma has_pure_get_reorders_witness :
  reachable abc ∧
  (has abc (JStr "a")).1 = abc ∧
  (∀ p, items abc !! JStr "a" = Some p → p ≠ head abc →
     get_changes_order abc (JStr "a")) ∧
  ((has abc (JStr "a")).2 = false ∨ head_key abc (JStr "a") →
     ∃ v, get abc (JStr "a") = Some (abc, v)).
Proof.
  split; [apply abc_reachable|].
  apply (has_pure_get_reorders abc (JStr "a")). apply abc_reachable.
Defined.

Lemma get_absent_unchanged_witness :
  (has abc (JStr "z")).2 = false ∧
  get abc (JStr "z") = Some (abc, undefined) ∧
  ∀ c' v, get abc (JStr "z") = Some (c', v) → to_list c' = to_list abc.
Proof.
  split; [vm_compute; reflexivity|].
  apply (get_absent_unchanged abc (JStr "z")). vm_compute; reflexivity.
Defined.

(** C8, as stated, fails on capacity 0: it is not positive, and the
    constructor builds a cache with it. *)
Lemma capacity_zero_constructs :
  invalid_capacity 0 ∧ LRUCache_new 0 = Some empty0.
Proof.
  split; [|vm_compute; reflexivity].
  left. by intros ?.
Qed.

Lemma LRUCache_new_rejects_witness :
  ((3 # 2) < 0 ∨ is_integer (3 # 2) = false ∨ inject_Z (2 ^ 32) <= 3 # 2)%Q ∧
  LRUCache_new (K:=jsval) (V:=jsval) (3 # 2) = None.
Proof.
  split; [right; left; reflexivity|].
  apply (LRUCache_new_rejects (3 # 2)). right; left. reflexivity.
Defined.

Lemma entries_pure_witness :
  reachable abc ∧
  (entries abc).1 = abc ∧
  (∀ fuel it c' it' es, drain fuel abc it = Some (c', it', es) → c' = abc) ∧
  ∃ it es,
    drain (S (size abc)) abc (entries abc).2 = Some (abc, it, es) ∧
    length es = size abc ∧
    ('(c1, es1) ← to_list abc; '(c2, es2) ← to_list c1; Some (c2, es1, es2))
    = Some (abc, es, es).
Proof.
  split; [apply abc_reachable|].
  apply (entries_pure abc). apply abc_reachable.
Defined.

(** * Further properties of the cache *)

Section More.

Context {K V : Type} `{Countable K} `{Undefined K} `{Undefined V}.

(** ** What every reachable cache satisfies *)

Lemma wf_slot_iff (c : LRUCache K V) L p : wf c L → p ∈ L ↔ p < size c.
Proof.
  intros Hwf. rewrite (wf_perm _ _ Hwf), elem_of_seq. lia.
Qed.

Lemma wf_length (c : LRUCache K V) L : wf c L → length L = size c.
Proof.
  intros Hwf. rewrite (Permutation_length (wf_perm _ _ Hwf)). apply length_seq.
Qed.

(** The key index and the [keys] array agree on the slots below [size]:
    [k] is indexed at [p] exactly when [p] is such a slot and holds [k]. *)
Theorem key_index_consistent (c : LRUCache K V) (k : K) (p : nat) :
  reachable c →
  items c !! k = Some p ↔ p < size c ∧ keys c !! p = Some k.
Proof.
  intros [L Hwf]%reachable_wf.
  by rewrite (wf_items _ _ Hwf), (wf_slot_iff c L p Hwf).
Qed.

Lemma indexed_size (m : gmap K nat) (ks : list K) (L : list nat) :
  NoDup L → (∀ p, p ∈ L → p < length ks) →
  (∀ k p, m !! k = Some p ↔ p ∈ L ∧ ks !! p = Some k) →
  base.size m = length L.
Proof.
  revert m. induction L as [|p L IH]; intros m Hnd Hlt Hm.
  - apply map_size_empty_iff, map_eq. intros k. rewrite lookup_empty.
    apply eq_None_not_Some. intros [p Hp]. apply Hm in Hp as [Hp _].
    by apply elem_of_nil in Hp.
  - apply NoDup_cons in Hnd as [Hp Hnd].
    pose proof (arr_get_lookup ks p (Hlt p ltac:(left))) as Hkp.
    assert (m !! arr_get ks p = Some p) as Hmp.
    { apply Hm. split; [left|done]. }
    rewrite <- (insert_delete_id m _ _ Hmp).
    rewrite map_size_insert_None by apply lookup_delete_eq.
    cbn [length]. f_equal. apply IH; [done|intros; apply Hlt; by right|].
    intros k p'. destruct (decide (k = arr_get ks p)) as [->|Hk].
    + rewrite lookup_delete_eq. split; [done|]. intros [Hp' Hks].
      assert (m !! arr_get ks p = Some p') as Hc.
      { apply Hm. split; [by right|done]. }
      congruence.
    + rewrite lookup_delete_ne by done. rewrite Hm, elem_of_cons.
      split; [|tauto]. intros [[->|Hin] Hks]; [congruence|done].
Qed.

(** The [Map] holds exactly [size] keys. *)
Theorem index_size (c : LRUCache K V) :
  reachable c → base.size (items c) = size c.
Proof.
  intros [L Hwf]%reachable_wf. rewrite <- (wf_length c L Hwf).
  apply (indexed_size (items c) (keys c) L).
  - by eapply wf_NoDup.
  - intros p Hp%(wf_slot_lt _ _ _ Hwf).
    rewrite (wf_klen _ _ Hwf). pose proof (wf_size _ _ Hwf). lia.
  - apply (wf_items _ _ Hwf).
Qed.

(** The four arrays are allocated once: in every reachable cache each has
    exactly [capacity] cells, whatever was stored since, and every cell of
    the two pointer arrays is a slot index below [capacity]. *)
Theorem arrays_fixed (c : LRUCache K V) :
  reachable c →
  0 < capacity c ∧ size c ≤ capacity c ∧
  length (cells (forward c)) = capacity c ∧
  length (cells (backward c)) = capacity c ∧
  length (keys c) = capacity c ∧
  length (values c) = capacity c ∧
  (∀ i p, cells (forward c) !! i = Some p → p < capacity c) ∧
  (∀ i p, cells (backward c) !! i = Some p → p < capacity c).
Proof.
  intros [L Hwf]%reachable_wf.
  pose proof (wf_frange _ _ Hwf) as Hfr. pose proof (wf_brange _ _ Hwf) as Hbr.
  destruct Hwf. split_and!; try done.
  - intros i p Hp. exact (Forall_lt_lookup _ i p _ Hfr Hp).
  - intros i p Hp. exact (Forall_lt_lookup _ i p _ Hbr Hp).
Qed.

(** [head] and [tail] are 0 in the empty cache and slots below [size]
    otherwise; they coincide exactly when there is at most one entry; and
    they hold the first and the last entry of the traversal. *)
Theorem head_tail_ends (c : LRUCache K V) :
  reachable c →
  (size c = 0 → head c = 0 ∧ tail c = 0) ∧
  (0 < size c → head c < size c ∧ tail c < size c) ∧
  (head c = tail c ↔ size c ≤ 1) ∧
  ∃ es, to_list c = Some (c, es) ∧
        (0 < size c → es !! 0 = Some (entry c (head c)) ∧
                      last es = Some (entry c (tail c))).
Proof.
  intros [L Hwf]%reachable_wf.
  pose proof (wf_length c L Hwf) as Hlen.
  pose proof (wf_NoDup c L Hwf) as Hnd.
  pose proof (wf_head _ _ Hwf) as Hhd. pose proof (wf_tail _ _ Hwf) as Htl.
  destruct L as [|h M].
  - simpl in *. split_and!; [done|lia| |].
    + split; [lia|congruence].
    + exists []. split; [by rewrite (to_list_wf c [] Hwf)|lia].
  - simpl in Hhd, Hlen.
    destruct (last (h :: M)) as [t|] eqn:Ht; [|by apply last_None in Ht].
    simpl in Htl.
    assert (h ∈ h :: M) as Hh by left.
    assert (t ∈ h :: M) as Htin by (by apply last_Some_elem_of).
    split_and!; [lia| | |].
    + intros _. rewrite Hhd, Htl.
      split; by apply (wf_slot_lt _ _ _ Hwf).
    + rewrite Hhd, Htl. destruct M as [|x M].
      * injection Ht as <-. simpl in Hlen. split; [lia|done].
      * simpl in Hlen. split; [|lia]. intros ->.
        apply NoDup_cons in Hnd as [Hnd _]. exfalso. apply Hnd.
        rewrite last_cons_cons in Ht. by apply last_Some_elem_of.
    + exists (map (entry c) (h :: M)). split; [by apply to_list_wf|].
      intros _. split; [by rewrite Hhd|].
      rewrite Htl. change (map (entry c) (h :: M)) with (entry c <$> h :: M).
      by rewrite fmap_last, Ht.
Qed.

Lemma links_next (l : list nat) (x : nat) :
  x ∈ l → last l ≠ Some x → ∃ n, (x, n) ∈ links l.
Proof.
  induction l as [|a [|b l] IH]; intros Hx Hl.
  - by apply elem_of_nil in Hx.
  - apply list_elem_of_singleton in Hx as ->. done.
  - rewrite links_cons. apply elem_of_cons in Hx as [->|Hx].
    + exists b. left.
    + destruct (IH Hx) as [n Hn]; [by rewrite last_cons_cons in Hl|].
      exists n. by right.
Qed.

Lemma links_prev (l : list nat) (x : nat) :
  x ∈ l → l !! 0 ≠ Some x → ∃ b, (b, x) ∈ links l.
Proof.
  induction l as [|a [|b l] IH]; intros Hx Hl.
  - by apply elem_of_nil in Hx.
  - apply list_elem_of_singleton in Hx as ->. done.
  - rewrite links_cons. apply elem_of_cons in Hx as [->|Hx]; [done|].
    destruct (decide (x = b)) as [->|Hxb].
    + exists a. left.
    + destruct (IH Hx) as [n Hn]; [simpl; congruence|].
      exists n. by right.
Qed.

(** The two pointer arrays mirror each other along the list: the forward
    pointer of a live slot other than [tail] is a live slot other than
    [head] whose backward pointer comes back, and the other way round. *)
Theorem links_mirror (c : LRUCache K V) (p : nat) :
  reachable c → p < size c →
  (p ≠ tail c →
     ∃ n, cells (forward c) !! p = Some n ∧ n < size c ∧ n ≠ head c ∧
          cells (backward c) !! n = Some p) ∧
  (p ≠ head c →
     ∃ b, cells (backward c) !! p = Some b ∧ b < size c ∧ b ≠ tail c ∧
          cells (forward c) !! b = Some p).
Proof.
  intros [L Hwf]%reachable_wf Hp%(wf_slot_iff c L p Hwf).
  pose proof (wf_NoDup c L Hwf) as Hnd.
  pose proof (wf_head _ _ Hwf) as Hhd. pose proof (wf_tail _ _ Hwf) as Htl.
  pose proof (wf_chain _ _ Hwf) as Hch. rewrite Forall_forall in Hch.
  destruct L as [|h M]; [by apply elem_of_nil in Hp|].
  destruct (last (h :: M)) as [t|] eqn:Ht; [|by apply last_None in Ht].
  simpl in Hhd, Htl. split.
  - intros Hpt. destruct (links_next (h :: M) p Hp) as [n Hn]; [congruence|].
    destruct (Hch _ Hn) as [Hf Hb]. simpl in Hf, Hb.
    exists n. split_and!; [done| | |done].
    + apply (wf_slot_lt _ _ _ Hwf). by apply links_elem in Hn as [_ ?].
    + rewrite Hhd. by apply (links_target_not_first (h :: M) p n h).
  - intros Hph. destruct (links_prev (h :: M) p Hp) as [b Hb]; [simpl; congruence|].
    destruct (Hch _ Hb) as [Hf Hbk]. simpl in Hf, Hbk.
    exists b. split_and!; [done| | |done].
    + apply (wf_slot_lt _ _ _ Hwf). by apply links_elem in Hb as [? _].
    + rewrite Htl. by apply (links_source_not_last (h :: M) b p t).
Qed.

(** ** [set] and [get], case by case *)

(** [set] of a key that is present stores the value in the key's own slot
    and brings the entry to the front: nothing is evicted, [size] and
    every other entry stay, in their order. *)
Theorem set_present_updates (c : LRUCache K V) (k : K) (v : V) :
  reachable c → (has c k).2 = true →
  ∃ c' es p,
    to_list c = Some (c, es) ∧ items c !! k = Some p ∧
    set c k v = Some c' ∧
    size c' = size c ∧ items c' = items c ∧ keys c' = keys c ∧
    values c' = <[p := v]> (values c) ∧
    to_list c' = Some (c', (k, v) :: filter (λ e, e.1 ≠ k) es).
Proof.
  intros [L Hwf]%reachable_wf [p Hk]%has_true_items.
  destruct (set_existing_wf c L k v p Hwf Hk)
    as (c' & Hs & Hwf' & Hc & Hsz & Hit & Hks & Hvs).
  destruct (wf_items_slot _ _ _ _ Hwf Hk) as (Hp & Hkp & Hpc).
  exists c', (map (entry c) L), p.
  split_and!; [by apply to_list_wf|done..|].
  rewrite (to_list_wf c' _ Hwf'). do 2 f_equal.
  assert (entry c' p = (k, v)) as He.
  { unfold entry, arr_get. rewrite Hks, Hvs, Hkp.
    rewrite list_lookup_insert_eq; [done|]. rewrite (wf_vlen _ _ Hwf). lia. }
  cbn [map]. rewrite He. f_equal.
  rewrite (filter_entries c L k p L Hwf Hk) by done.
  apply map_entry_ext. intros x [Hx _]%list_elem_of_filter.
  unfold entry, arr_get. rewrite Hks, Hvs.
  by rewrite list_lookup_insert_ne by done.
Qed.

(** [set] of a key that is absent, below capacity: the entry goes to the
    next unused slot, which is [size], and to the front of the traversal;
    [size] grows by one and nothing is evicted. *)
Theorem set_absent_appends (c : LRUCache K V) (k : K) (v : V) :
  reachable c → (has c k).2 = false → size c < capacity c →
  ∃ c' es,
    to_list c = Some (c, es) ∧
    set c k v = Some c' ∧
    size c' = S (size c) ∧ items c' !! k = Some (size c) ∧
    entry c' (size c) = (k, v) ∧
    to_list c' = Some (c', (k, v) :: es).
Proof.
  intros [L Hwf]%reachable_wf Hk%has_false Hlt.
  destruct (set_fresh_wf c L k v Hwf Hk Hlt)
    as (c' & Hs & Hwf' & Hc & Hsz & Hit & Hks & Hvs).
  destruct (entry_insert c c' (size c) k v Hks Hvs) as [He Hother].
  { rewrite (wf_klen _ _ Hwf). lia. }
  { rewrite (wf_vlen _ _ Hwf). lia. }
  exists c', (map (entry c) L).
  split_and!; [by apply to_list_wf|done|done| |done|].
  - by rewrite Hit, lookup_insert_eq.
  - rewrite (to_list_wf c' _ Hwf'). cbn [map]. rewrite He. do 3 f_equal.
    apply map_entry_ext. intros x Hx%(wf_slot_lt _ _ _ Hwf).
    apply Hother. lia.
Qed.

Lemma set_values_id (c : LRUCache K V) : set_values c (values c) = c.
Proof. by destruct c. Qed.

(** Repeating a [set] changes nothing: the cache after [set(k, v)] is a
    fixed point of [set(k, v)]. *)
Theorem set_twice (c c1 : LRUCache K V) (k : K) (v : V) :
  reachable c → set c k v = Some c1 → set c1 k v = Some c1.
Proof.
  intros [L Hwf]%reachable_wf Hs.
  destruct (set_stores c L k v Hwf) as (c' & L' & p & Hs' & Hwf' & Hk & He).
  rewrite Hs in Hs'. injection Hs' as <-.
  pose proof (wf_head _ _ Hwf') as Hhd. simpl in Hhd.
  destruct (wf_items_slot _ _ _ _ Hwf' Hk) as (_ & _ & Hpc).
  unfold set. rewrite Hk, (splayOnTop_head c1 p Hhd). cbn [mbind option_bind].
  rewrite arr_set_in by (rewrite (wf_vlen _ _ Hwf'); lia).
  rewrite list_insert_id; [by rewrite set_values_id|].
  unfold entry in He. injection He as _ Hv.
  rewrite (arr_get_lookup (values c1) p) by (rewrite (wf_vlen _ _ Hwf'); lia).
  by rewrite Hv.
Qed.

(** A read never disturbs what another read returns: after [get(k)],
    [get(k')] returns what it would have returned before. *)
Theorem get_then_get (c c1 c2 : LRUCache K V) (k k' : K) (v v' : V) :
  reachable c → get c k = Some (c1, v) → get c k' = Some (c2, v') →
  ∃ c3, get c1 k' = Some (c3, v') ∧ size c1 = size c ∧
        ∀ x, (has c1 x).2 = (has c x).2.
Proof.
  intros [L Hwf]%reachable_wf Hg Hg'.
  destruct (items c !! k) as [p|] eqn:Hk.
  - destruct (get_present_wf c L k p Hwf Hk)
      as (c' & Hg1 & Hwf1 & Hc & Hsz & Hit & Hks & Hvs).
    rewrite Hg in Hg1. injection Hg1 as <- _.
    assert (∀ x, (has c1 x).2 = (has c x).2) as Hhas.
    { intros x. unfold has. cbn [snd]. by rewrite Hit. }
    destruct (items c !! k') as [p'|] eqn:Hk'.
    + destruct (get_present_wf c L k' p' Hwf Hk') as (c2' & Hg2 & _).
      rewrite Hg' in Hg2. injection Hg2 as _ ->.
      rewrite <- Hit in Hk'.
      destruct (get_present_wf c1 _ k' p' Hwf1 Hk') as (c3 & Hg3 & _).
      exists c3. by rewrite Hg3, Hvs.
    + rewrite (get_absent c k' Hk') in Hg'. injection Hg' as _ <-.
      rewrite <- Hit in Hk'. exists c1. by rewrite (get_absent c1 k' Hk').
  - rewrite (get_absent c k Hk) in Hg. injection Hg as <- _.
    exists c2. done.
Qed.

Lemma splayOnTop_frame (c c' : LRUCache K V) (p : nat) :
  splayOnTop c p = Some c' →
  capacity c' = capacity c ∧ size c' = size c ∧ items c' = items c ∧
  keys c' = keys c ∧ values c' = values c.
Proof.
  unfold splayOnTop, ta_get. intros Hs. destruct c as [cap F B ks vs its sz hd tl].
  cbn [head tail forward backward] in Hs.
  repeat case_decide; simplify_option_eq; done.
Qed.

(** [get] only relinks: whatever the cache, when it returns, [capacity],
    [size], the key index and the [keys] and [values] arrays are as they
    were, so the same keys are present with the same values. *)
Theorem get_frame (c c' : LRUCache K V) (k : K) (v : V) :
  get c k = Some (c', v) →
  capacity c' = capacity c ∧ size c' = size c ∧ items c' = items c ∧
  keys c' = keys c ∧ values c' = values c ∧
  ∀ x, (has c' x).2 = (has c x).2.
Proof.
  unfold get. intros Hg.
  assert (capacity c' = capacity c ∧ size c' = size c ∧ items c' = items c ∧
          keys c' = keys c ∧ values c' = values c) as (? & ? & Hit & ? & ?).
  { destruct (items c !! k) as [p|]; [|by injection Hg as <- _].
    destruct (splayOnTop c p) as [c1|] eqn:Hs; [|done].
    cbn [mbind option_bind] in Hg. injection Hg as <- _.
    by apply splayOnTop_frame in Hs. }
  split_and!; try done. intros x. unfold has. cbn [snd]. by rewrite Hit.
Qed.

(** What [set(k, v)] does to the index and the slot of another key. *)
Lemma set_other_slot (c c' : LRUCache K V) L (k k' : K) (v : V) (p' : nat) :
  wf c L → set c k v = Some c' → k' ≠ k → items c' !! k' = Some p' →
  items c !! k' = Some p' ∧ entry c' p' = entry c p'.
Proof.
  intros Hwf Hs Hne Hk'.
  pose proof (wf_size _ _ Hwf) as Hsize. pose proof (wf_cap _ _ Hwf) as Hcap.
  destruct (items c !! k) as [p|] eqn:Hk.
  - destruct (set_existing_wf c L k v p Hwf Hk)
      as (c1 & Hs1 & _ & _ & _ & Hit & Hks & Hvs).
    rewrite Hs in Hs1. injection Hs1 as <-. rewrite Hit in Hk'.
    split; [done|]. unfold entry, arr_get. rewrite Hks, Hvs.
    rewrite list_lookup_insert_ne; [done|]. intros <-.
    destruct (wf_items_slot _ _ _ _ Hwf Hk) as (_ & Hkp & _).
    destruct (wf_items_slot _ _ _ _ Hwf Hk') as (_ & Hkp' & _). congruence.
  - destruct (decide (size c < capacity c)) as [Hlt|Hge].
    + destruct (set_fresh_wf c L k v Hwf Hk Hlt)
        as (c1 & Hs1 & _ & _ & _ & Hit & Hks & Hvs).
      rewrite Hs in Hs1. injection Hs1 as <-.
      rewrite Hit, lookup_insert_ne in Hk' by done. split; [done|].
      destruct (wf_items_slot _ _ _ _ Hwf Hk') as (Hin%(wf_slot_lt _ _ _ Hwf) & _).
      unfold entry, arr_get. rewrite Hks, Hvs.
      by rewrite !list_lookup_insert_ne by lia.
    + destruct (wf_full_last c L Hwf) as [M ->]; [lia|].
      destruct (set_evict_wf c M k v Hwf Hk)
        as (c1 & Hs1 & _ & _ & _ & Hit & Hks & Hvs); [lia|].
      rewrite Hs in Hs1. injection Hs1 as <-.
      rewrite Hit, lookup_insert_ne in Hk' by done.
      apply lookup_delete_Some in Hk' as [Hkt Hk']. split; [done|].
      assert (p' ≠ tail c) as Hp'.
      { intros ->. destruct (wf_items_slot _ _ _ _ Hwf Hk') as (_ & Hkp & _).
        apply Hkt. by apply arr_get_Some. }
      unfold entry, arr_get. rewrite Hks, Hvs.
      by rewrite !list_lookup_insert_ne by done.
Qed.

(** [set(k, v)] leaves the other keys alone: a key other than [k] that is
    present afterwards was present before, in the same slot, and [get]
    returns for it what it returned before; and unless the cache was full
    and [k] absent, every key present before is present afterwards. *)
Theorem set_keeps_others (c c' : LRUCache K V) (k k' : K) (v : V) :
  reachable c → set c k v = Some c' → k' ≠ k →
  ((has c' k').2 = true →
     (has c k').2 = true ∧ items c' !! k' = items c !! k' ∧
     ∀ c2 w, get c k' = Some (c2, w) → ∃ c3, get c' k' = Some (c3, w)) ∧
  ((has c k).2 = true ∨ size c < capacity c →
     (has c' k').2 = (has c k').2).
Proof.
  intros Hreach Hs Hne. destruct (reachable_wf c Hreach) as [L Hwf].
  destruct (set_wf c L k v Hwf) as (c1 & L' & Hs1 & Hwf' & _).
  rewrite Hs in Hs1. injection Hs1 as <-. split.
  - intros [p' Hk']%has_true_items.
    destruct (set_other_slot c c' L k k' v p' Hwf Hs Hne Hk') as [Hk0 He].
    split_and!; [apply has_true_items; by eexists|congruence|].
    intros c2 w Hg.
    destruct (get_present_wf c L k' p' Hwf Hk0) as (? & Hg0 & _).
    rewrite Hg in Hg0. injection Hg0 as _ ->.
    destruct (get_present_wf c' L' k' p' Hwf' Hk') as (c3 & Hg3 & _).
    exists c3. rewrite Hg3. do 2 f_equal. unfold entry in He. by injection He.
  - intros Hno. unfold has. cbn [snd]. f_equal.
    destruct (items c !! k) as [p|] eqn:Hk.
    + destruct (set_existing_wf c L k v p Hwf Hk) as (c1 & Hs1 & _ & _ & _ & Hit & _).
      rewrite Hs in Hs1. injection Hs1 as <-. by rewrite Hit.
    + destruct Hno as [[? ?]%has_true_items|Hlt]; [congruence|].
      destruct (set_fresh_wf c L k v Hwf Hk Hlt) as (c1 & Hs1 & _ & _ & _ & Hit & _).
      rewrite Hs in Hs1. injection Hs1 as <-.
      by rewrite Hit, lookup_insert_ne.
Qed.

(** [set] always succeeds on a reachable cache: it keeps [capacity],
    changes [size] by at most one and never beyond [capacity], and leaves
    its key present, at [head]. *)
Theorem set_succeeds (c : LRUCache K V) (k : K) (v : V) :
  reachable c →
  ∃ c', set c k v = Some c' ∧
        capacity c' = capacity c ∧
        size c ≤ size c' ∧ size c' ≤ S (size c) ∧ size c' ≤ capacity c' ∧
        0 < size c' ∧
        (has c' k).2 = true ∧ head_key c' k ∧ entry c' (head c') = (k, v).
Proof.
  intros [L Hwf]%reachable_wf.
  destruct (set_stores c L k v Hwf) as (c' & L' & p & Hs & Hwf' & Hk & He).
  pose proof (wf_head _ _ Hwf') as Hhd. simpl in Hhd.
  pose proof (wf_length _ _ Hwf') as Hlen. simpl in Hlen.
  pose proof (wf_size _ _ Hwf') as Hsz'.
  exists c'. unfold head_key. rewrite Hhd.
  split_and!; try done; try lia.
  - destruct (set_wf c L k v Hwf) as (c1 & ? & Hs1 & _ & Hc).
    rewrite Hs in Hs1. by injection Hs1 as <-.
  - destruct (items c !! k) as [q|] eqn:Hq.
    + destruct (set_existing_wf c L k v q Hwf Hq) as (c1 & Hs1 & _ & _ & Hz & _).
      rewrite Hs in Hs1. injection Hs1 as <-. lia.
    + destruct (decide (size c < capacity c)) as [Hlt|Hge].
      * destruct (set_fresh_wf c L k v Hwf Hq Hlt) as (c1 & Hs1 & _ & _ & Hz & _).
        rewrite Hs in Hs1. injection Hs1 as <-. lia.
      * pose proof (wf_size _ _ Hwf). pose proof (wf_cap _ _ Hwf).
        destruct (wf_full_last c L Hwf) as [M ->]; [lia|].
        destruct (set_evict_wf c M k v Hwf Hq) as (c1 & Hs1 & _ & _ & Hz & _); [lia|].
        rewrite Hs in Hs1. injection Hs1 as <-. lia.
  - destruct (items c !! k) as [q|] eqn:Hq.
    + destruct (set_existing_wf c L k v q Hwf Hq) as (c1 & Hs1 & _ & _ & Hz & _).
      rewrite Hs in Hs1. injection Hs1 as <-. lia.
    + destruct (decide (size c < capacity c)) as [Hlt|Hge].
      * destruct (set_fresh_wf c L k v Hwf Hq Hlt) as (c1 & Hs1 & _ & _ & Hz & _).
        rewrite Hs in Hs1. injection Hs1 as <-. lia.
      * pose proof (wf_size _ _ Hwf). pose proof (wf_cap _ _ Hwf).
        destruct (wf_full_last c L Hwf) as [M ->]; [lia|].
        destruct (set_evict_wf c M k v Hwf Hq) as (c1 & Hs1 & _ & _ & Hz & _); [lia|].
        rewrite Hs in Hs1. injection Hs1 as <-. lia.
  - apply has_true_items. by eexists.
Qed.

(** A cache of capacity 1 holds the last key set and nothing else. *)
Theorem capacity_one (c : LRUCache K V) (k : K) (v : V) :
  reachable c → capacity c = 1 →
  ∃ c', set c k v = Some c' ∧ size c' = 1 ∧ head c' = 0 ∧ tail c' = 0 ∧
        to_list c' = Some (c', [(k, v)]) ∧
        ∀ k', (has c' k').2 = true ↔ k' = k.
Proof.
  intros [L Hwf]%reachable_wf Hcap.
  destruct (set_stores c L k v Hwf) as (c' & L' & p & Hs & Hwf' & Hk & He).
  destruct (set_wf c L k v Hwf) as (c1 & ? & Hs1 & _ & Hc).
  rewrite Hs in Hs1. injection Hs1 as <-.
  pose proof (wf_length _ _ Hwf') as Hlen. simpl in Hlen.
  pose proof (wf_size _ _ Hwf') as Hsz'.
  destruct L' as [|y L']; [|simpl in Hlen; lia].
  assert (p = 0) as ->.
  { assert (p < size c') by (apply (wf_slot_lt _ _ _ Hwf'); left). lia. }
  exists c'. split_and!; [done|simpl in Hlen; lia| | | |].
  - by rewrite (wf_head _ _ Hwf').
  - by rewrite (wf_tail _ _ Hwf').
  - rewrite (to_list_wf c' _ Hwf'). cbn [map]. by rewrite He.
  - intros k'. rewrite (has_true c' _ k' Hwf'). cbn [map].
    unfold entry in He. injection He as -> _.
    by rewrite list_elem_of_singleton.
Qed.

(** [clear] makes the cache usable again whatever its arrays still hold:
    no key is present, and the next [set] builds the one-entry cache in
    slot 0. *)
Theorem clear_then_set (c : LRUCache K V) (k : K) (v : V) :
  reachable c →
  (∀ x, (has (clear c) x).2 = false ∧ get (clear c) x = Some (clear c, undefined)) ∧
  ∃ c', set (clear c) k v = Some c' ∧ size c' = 1 ∧ capacity c' = capacity c ∧
        items c' = {[ k := 0 ]} ∧ head c' = 0 ∧ tail c' = 0 ∧
        to_list c' = Some (c', [(k, v)]).
Proof.
  intros [L Hwf]%reachable_wf. pose proof (clear_wf c L Hwf) as Hwf0.
  pose proof (wf_cap _ _ Hwf) as Hcap. split; [done|].
  destruct (set_fresh_wf (clear c) [] k v Hwf0)
    as (c' & Hs & Hwf' & Hc & Hsz & Hit & Hks & Hvs); [done|simpl; lia|].
  cbn [clear set_items set_tail set_head set_size size items keys values] in *.
  destruct (entry_insert (clear c) c' 0 k v Hks Hvs) as [He _].
  { simpl. rewrite (wf_klen _ _ Hwf). lia. }
  { simpl. rewrite (wf_vlen _ _ Hwf). lia. }
  exists c'. split_and!; [done..| | | |].
  - by rewrite Hit, insert_empty.
  - by rewrite (wf_head _ _ Hwf').
  - by rewrite (wf_tail _ _ Hwf').
  - rewrite (to_list_wf c' _ Hwf'). cbn [map]. by rewrite He.
Qed.

(** ** The traversal *)

Lemma keys_of_entries (c : LRUCache K V) (l : list nat) :
  (map (entry c) l).*1 = map (arr_get (keys c)) l.
Proof. induction l as [|x l IH]; [done|]. cbn. by rewrite <- IH. Qed.

Lemma wf_keys_NoDup (c : LRUCache K V) L :
  wf c L → NoDup (map (arr_get (keys c)) L).
Proof.
  intros Hwf. apply (NoDup_fmap_2_strong (arr_get (keys c))); [|by eapply wf_NoDup].
  intros x y Hx Hy Heq.
  pose proof (wf_key_at c L x Hwf Hx) as Hkx.
  pose proof (wf_key_at c L y Hwf Hy) as Hky. congruence.
Qed.

(** The traversal lists every present key once, with the value [get]
    returns for it, and nothing else; it has [size] entries. *)
Theorem entries_are_the_cache (c : LRUCache K V) :
  reachable c →
  ∃ es, to_list c = Some (c, es) ∧ length es = size c ∧
        NoDup es.*1 ∧
        (∀ k, (has c k).2 = true ↔ k ∈ es.*1) ∧
        (∀ k v, (k, v) ∈ es ↔
                (has c k).2 = true ∧ ∃ c', get c k = Some (c', v)).
Proof.
  intros [L Hwf]%reachable_wf. exists (map (entry c) L).
  split_and!.
  - by apply to_list_wf.
  - by rewrite length_map, (wf_length c L Hwf).
  - rewrite keys_of_entries. by apply wf_keys_NoDup.
  - intros k. rewrite keys_of_entries. by apply has_true.
  - intros k v. split.
    + intros (p & He & Hp)%list_elem_of_fmap.
      unfold entry in He. injection He as -> ->.
      pose proof (wf_key_at c L p Hwf Hp) as Hk.
      split; [apply has_true_items; by eexists|].
      destruct (get_present_wf c L _ p Hwf Hk) as (c' & Hg & _). by exists c'.
    + intros [[p Hk]%has_true_items [c' Hg]].
      destruct (get_present_wf c L k p Hwf Hk) as (c1 & Hg1 & _).
      rewrite Hg in Hg1. injection Hg1 as _ ->.
      destruct (wf_items_slot _ _ _ _ Hwf Hk) as (Hp & Hkp & _).
      apply list_elem_of_fmap. exists p. split; [|done].
      unfold entry. by rewrite (arr_get_Some _ _ _ Hkp).
Qed.

(** The traversal is in the order of the latest touch: after any sequence
    of [set] and [get] on a new cache, its keys are the [capacity] most
    recently touched distinct keys, the latest first. *)
Theorem traversal_order_is_recency (q : Q) (c : LRUCache K V) (ops : list op) :
  (0 < q)%Q → LRUCache_new q = Some c →
  ∃ c' log es, run c [] ops = Some (c', log) ∧
               to_list c' = Some (c', es) ∧
               es.*1 = most_recent (capacity c') log.
Proof.
  intros Hq Hc. pose proof (LRUCache_new_wf q c Hq Hc) as Hwf.
  destruct (run_recent ops c [] [] Hwf) as (c' & L' & log & Hrun & Hwf' & Hcap & Hrec).
  { unfold most_recent. cbn [recency map]. by rewrite take_nil. }
  exists c', log, (map (entry c') L'). split_and!; [done|by apply to_list_wf|].
  by rewrite keys_of_entries.
Qed.

Lemma set_entries_sub (c c' : LRUCache K V) L L' (k k' : K) (v v' : V) :
  wf c L → set c k v = Some c' → wf c' L' →
  (k', v') ∈ map (entry c') L' →
  (k' = k ∧ v' = v) ∨ (k' ≠ k ∧ (k', v') ∈ map (entry c) L).
Proof.
  intros Hwf Hs Hwf' (p' & He & Hp')%list_elem_of_fmap.
  pose proof (wf_key_at c' L' p' Hwf' Hp') as Hk'.
  unfold entry in He. injection He as Hk1 Hv1. rewrite <- Hk1 in Hk'.
  destruct (decide (k' = k)) as [->|Hne].
  - left. split; [done|].
    destruct (set_stores c L k v Hwf) as (c1 & L1 & p & Hs1 & _ & Hk & Hep).
    rewrite Hs in Hs1. injection Hs1 as <-.
    assert (p' = p) as -> by congruence.
    unfold entry in Hep. injection Hep as _ Hv. congruence.
  - right. split; [done|].
    destruct (set_other_slot c c' L k k' v p' Hwf Hs Hne Hk') as [Hk0 He].
    destruct (wf_items_slot _ _ _ _ Hwf Hk0) as (Hp & _ & _).
    apply list_elem_of_fmap. exists p'. split; [|done].
    rewrite <- He. unfold entry. congruence.
Qed.

Lemma get_entries_sub (c c' : LRUCache K V) L L' (k : K) (v : V) (e : K * V) :
  wf c L → get c k = Some (c', v) → wf c' L' →
  e ∈ map (entry c') L' → e ∈ map (entry c) L.
Proof.
  intros Hwf Hg Hwf' (p & -> & Hp)%list_elem_of_fmap.
  destruct (get_frame c c' k v Hg) as (_ & Hsz & _ & Hks & Hvs & _).
  apply list_elem_of_fmap. exists p. split.
  - unfold entry. by rewrite Hks, Hvs.
  - apply (wf_slot_iff c L p Hwf). rewrite <- Hsz.
    by apply (wf_slot_iff c' L' p Hwf').
Qed.

Lemma run_latest (ops : list op) (c : LRUCache K V) L (log : list K)
    (history : list op) :
  wf c L →
  (∀ k v, (k, v) ∈ map (entry c) L → latest history k = Some v) →
  ∃ c' L' log', run c log ops = Some (c', log') ∧ wf c' L' ∧
    ∀ k v, (k, v) ∈ map (entry c') L' →
           latest (reverse ops ++ history) k = Some v.
Proof.
  revert c L log history.
  induction ops as [|[k v|k] ops IH]; intros c L log history Hwf Hlat.
  - exists c, L, log. by split_and!.
  - destruct (set_wf c L k v Hwf) as (c1 & L1 & Hs & Hwf1 & _).
    destruct (IH c1 L1 (k :: log) (OpSet k v :: history) Hwf1)
      as (c' & L' & log' & Hr & Hwf' & Hlat').
    { intros k' v' Hin.
      destruct (set_entries_sub c c1 L L1 k k' v v' Hwf Hs Hwf1 Hin)
        as [[-> ->]|[Hne Hin0]]; cbn [latest].
      - by rewrite decide_True.
      - rewrite decide_False by done. by apply Hlat. }
    exists c', L', log'. cbn [run]. rewrite Hs. cbn [mbind option_bind].
    split_and!; [done..|]. intros k' v' Hin.
    rewrite reverse_cons, <- app_assoc. by apply Hlat'.
  - destruct (get_wf c L k Hwf) as (c1 & v1 & L1 & Hg & Hwf1 & _).
    destruct (IH c1 L1 (if (has c k).2 then k :: log else log)
                (OpGet k :: history) Hwf1)
      as (c' & L' & log' & Hr & Hwf' & Hlat').
    { intros k' v' Hin. cbn [latest]. apply Hlat.
      by apply (get_entries_sub c c1 L L1 k v1). }
    exists c', L', log'. cbn [run]. rewrite Hg. cbn [mbind option_bind].
    split_and!; [done..|]. intros k' v' Hin.
    rewrite reverse_cons, <- app_assoc. by apply Hlat'.
Qed.

(** The cache returns what was stored last: after any sequence of [set]
    and [get] on a new cache, every key in the traversal carries the value
    of the latest [set] of that key, and [get] returns it. *)
Theorem last_write_wins (q : Q) (c : LRUCache K V) (ops : list op) :
  (0 < q)%Q → LRUCache_new q = Some c →
  ∃ c' log es,
    run c [] ops = Some (c', log) ∧ to_list c' = Some (c', es) ∧
    ∀ k, (has c' k).2 = true →
         ∃ v c2, latest (reverse ops) k = Some v ∧ (k, v) ∈ es ∧
                 get c' k = Some (c2, v).
Proof.
  intros Hq Hc. pose proof (LRUCache_new_wf q c Hq Hc) as Hwf.
  destruct (run_latest ops c [] [] [] Hwf) as (c' & L' & log & Hrun & Hwf' & Hlat).
  { by intros k v ?%elem_of_nil. }
  rewrite app_nil_r in Hlat.
  exists c', log, (map (entry c') L'). split_and!; [done|by apply to_list_wf|].
  intros k [p Hk]%has_true_items.
  destruct (get_present_wf c' L' k p Hwf' Hk) as (c2 & Hg & _).
  destruct (wf_items_slot _ _ _ _ Hwf' Hk) as (Hp & Hkp & _).
  assert ((k, arr_get (values c') p) ∈ map (entry c') L') as Hin.
  { apply list_elem_of_fmap. exists p. split; [|done].
    unfold entry. by rewrite (arr_get_Some _ _ _ Hkp). }
  exists (arr_get (values c') p), c2. split_and!; [by apply Hlat|done..].
Qed.

(** ** Iterators and [inspect] *)

(** An iterator over a reachable cache always comes to its end, however
    stale it is: whatever its counters, with its pointer inside the arrays
    it yields exactly [l - i] more entries, never loads a pointer from
    outside [forward], leaves the cache as it is, and once done stays
    done. *)
Theorem iterator_terminates (c : LRUCache K V) (it : Iterator) (fuel : nat) :
  reachable c → it_pointer it < capacity c → it_l it - it_i it < fuel →
  ∃ it' es, drain fuel c it = Some (c, it', es) ∧
            length es = it_l it - it_i it ∧
            it_l it' = it_l it ∧ it_l it' ≤ it_i it' ∧
            it_pointer it' < capacity c ∧
            next c it' = Some (c, it', None).
Proof.
  intros [L Hwf]%reachable_wf.
  pose proof (wf_frange _ _ Hwf) as Hfr. pose proof (wf_flen _ _ Hwf) as Hfl.
  destruct it as [i l p]. cbn [it_pointer it_l it_i].
  remember (l - i) as n eqn:Hn. revert i p fuel Hn.
  induction n as [|n IH]; intros i p fuel Hn Hp Hfuel.
  - destruct fuel as [|fuel]; [lia|]. cbn [drain].
    rewrite next_done by lia. cbn [mbind option_bind].
    exists (mkIterator i l p), []. cbn [it_pointer it_l it_i].
    split_and!; [done..|lia|done|]. apply next_done. lia.
  - destruct fuel as [|fuel]; [lia|]. cbn [drain].
    destruct (decide (S i < l)) as [Hlt|Hge].
    + destruct (lookup_lt_is_Some_2 (cells (forward c)) p) as [b Hb]; [lia|].
      pose proof (Forall_lt_lookup _ p b _ Hfr Hb) as Hbc.
      rewrite (next_step c i l p b Hlt Hb). cbn [mbind option_bind].
      destruct (IH (S i) b fuel) as (it' & es & Hd & Hlen & ? & ? & ? & ?);
        [lia..|].
      rewrite Hd. cbn [mbind option_bind].
      exists it', (entry c p :: es). split_and!; try done. simpl. lia.
    + rewrite (next_last c i l p) by lia. cbn [mbind option_bind].
      destruct (IH l p fuel) as (it' & es & Hd & Hlen & ? & ? & ? & ?);
        [lia..|].
      rewrite Hd. cbn [mbind option_bind].
      exists it', (entry c p :: es). split_and!; try done. simpl. lia.
Qed.

Lemma omap_set_fresh (m : list (K * V)) (k : K) (v : V) :
  k ∉ m.*1 → omap_set m k v = m ++ [(k, v)].
Proof.
  induction m as [|[k' v'] m IH]; [done|].
  cbn. rewrite not_elem_of_cons. intros [Hne Hk].
  rewrite decide_False by done. by rewrite IH.
Qed.

Lemma inspect_loop_drain (fuel : nat) (c c' : LRUCache K V)
    (it it' : Iterator) (acc es : list (K * V)) :
  drain fuel c it = Some (c', it', es) → NoDup (acc ++ es).*1 →
  inspect_loop fuel c it acc = Some (c', it', acc ++ es).
Proof.
  revert c it acc es. induction fuel as [|fuel IH]; intros c it acc es Hd Hnd; [done|].
  cbn [drain] in Hd. cbn [inspect_loop].
  destruct (next c it) as [[[c1 it1] [[k v]|]]|]; cbn [mbind option_bind] in *;
    [| |done].
  - destruct (drain fuel c1 it1) as [[[c2 it2] es2]|] eqn:Hd2; [|done].
    cbn [mbind option_bind] in Hd. injection Hd as <- <- <-.
    rewrite omap_set_fresh.
    + rewrite (IH c1 it1 (acc ++ [(k, v)]) es2 Hd2); [by rewrite <- app_assoc|].
      by rewrite <- app_assoc.
    + rewrite fmap_app in Hnd. apply NoDup_app in Hnd as (_ & Hd & _).
      intros Hin. apply (Hd k Hin). left.
  - injection Hd as <- <- <-. by rewrite app_nil_r.
Qed.

Lemma drain_wf (c : LRUCache K V) L (fuel : nat) :
  wf c L → size c < fuel →
  ∃ it, drain fuel c (entries c).2 = Some (c, it, map (entry c) L).
Proof.
  intros Hwf Hfuel. pose proof (wf_length c L Hwf) as Hlen.
  cbn [entries snd]. destruct L as [|h M].
  - simpl in Hlen. destruct fuel as [|fuel]; [lia|]. cbn [drain].
    rewrite next_done by lia. by eexists.
  - rewrite (wf_head _ _ Hwf). simpl in Hlen. cbn [lookup list_lookup default].
    eexists. apply (drain_links c M h 0 (size c)); [|lia..].
    apply (wf_chain _ _ Hwf).
Qed.

(** [inspect] returns a [Map] that lists the entries of the cache in the
    order of the traversal, under the constructor [LRUCache], and leaves
    the cache as it is; its loop ends after [size + 1] calls of [next]. *)
Theorem inspect_lists_entries (c : LRUCache K V) (fuel : nat) :
  reachable c → size c < fuel →
  ∃ es, to_list c = Some (c, es) ∧
        inspect fuel c = Some (c, mkProxy es LRUCacheConstructor).
Proof.
  intros [L Hwf]%reachable_wf Hfuel. exists (map (entry c) L).
  split; [by apply to_list_wf|].
  destruct (drain_wf c L fuel Hwf Hfuel) as [it Hd].
  unfold inspect. cbn [entries snd] in *.
  rewrite (inspect_loop_drain fuel c c _ it [] (map (entry c) L) Hd); [done|].
  cbn [app]. rewrite keys_of_entries. by apply wf_keys_NoDup.
Qed.

(** ** The constructor *)

(** A cache that [new LRUCache(capacity)] builds has the capacity asked
    for and is empty: [size], [head] and [tail] are 0, no key is present,
    the four arrays have [capacity] cells, and the traversal is empty. *)
Theorem new_cache_is_empty (q : Q) (c : LRUCache K V) :
  LRUCache_new q = Some c →
  (inject_Z (Z.of_nat (capacity c)) == q)%Q ∧
  size c = 0 ∧ head c = 0 ∧ tail c = 0 ∧ items c = ∅ ∧
  cells (forward c) = replicate (capacity c) 0 ∧
  cells (backward c) = replicate (capacity c) 0 ∧
  keys c = replicate (capacity c) undefined ∧
  values c = replicate (capacity c) undefined ∧
  (∀ k, (has c k).2 = false ∧ get c k = Some (c, undefined)) ∧
  to_list c = Some (c, []).
Proof.
  intros Hc.
  destruct (proj1 (LRUCache_new_is_Some q)) as [Hi [Hge H32]]; [by eexists|].
  pose proof (is_integer_spec q Hi) as Hn.
  unfold LRUCache_new, new_Array, array_length, new_TypedArray in Hc.
  destruct (getPointerArray q) as [P|] eqn:HP; [|done]. simpl in Hc.
  rewrite Hi in Hc. simpl in Hc.
  replace (0 <=? truncate q)%Z with true in Hc by (symmetry; lia).
  replace (truncate q <=? 2 ^ 53 - 1)%Z with true in Hc by (symmetry; lia).
  replace (truncate q <? 2 ^ 32)%Z with true in Hc by (symmetry; lia).
  simpl in Hc. injection Hc as <-. cbn.
  split_and!; try done.
  unfold Qeq. cbn. rewrite Z2Nat.id by done. lia.
Qed.

(** The pointer arrays are wide enough for every slot: [capacity] does not
    exceed the number of values of their element type, so no store of a
    slot index is ever reduced modulo the element width.  (The element
    type is the one [typed.getPointerArray] chooses, as modelled above.) *)
Theorem pointers_never_wrap (c : LRUCache K V) (p : nat) :
  reachable c → p < capacity c →
  wrap (elt (forward c)) p = p ∧ wrap (elt (backward c)) p = p.
Proof.
  intros [L Hwf]%reachable_wf Hp.
  pose proof (wf_fbits _ _ Hwf). pose proof (wf_bbits _ _ Hwf).
  split; apply wrap_small; lia.
Qed.

End More.

(** ** The further properties on the scenario of the specification *)

Lemma empty3_reachable : reachable empty3.
Proof. by apply (reach_new 3 empty3); [|apply empty3_new]. Qed.

Lemma empty1_reachable : reachable empty1.
Proof. apply (reach_new 1 empty1); [done|]. vm_compute. reflexivity. Qed.

Lemma get_abc_a : get abc (JStr "a") = Some (abc_a, JNum 1).
Proof. vm_compute. reflexivity. Qed.

Lemma abc_a_reachable : reachable abc_a.
Proof. eapply reach_get; [apply abc_reachable|apply get_abc_a]. Qed.

Lemma set_abc_a_d : set abc_a (JStr "d") (JNum 4) = Some adc.
Proof. vm_compute. reflexivity. Qed.

Lemma adc_reachable : reachable adc.
Proof. eapply reach_set; [apply abc_a_reachable|apply set_abc_a_d]. Qed.

Lemma key_index_consistent_witness :
  reachable abc ∧
  (items abc !! JStr "b" = Some 1 ↔
   1 < size abc ∧ keys abc !! 1 = Some (JStr "b")).
Proof.
  split; [apply abc_reachable|].
  apply (key_index_consistent abc (JStr "b") 1). apply abc_reachable.
Defined.

Lemma index_size_witness : reachable adc ∧ base.size (items adc) = size adc.
Proof.
  split; [apply adc_reachable|]. apply (index_size adc). apply adc_reachable.
Defined.

Lemma arrays_fixed_witness :
  reachable adc ∧
  0 < capacity adc ∧ size adc ≤ capacity adc ∧
  length (cells (forward adc)) = capacity adc ∧
  length (cells (backward adc)) = capacity adc ∧
  length (keys adc) = capacity adc ∧
  length (values adc) = capacity adc ∧
  (∀ i p, cells (forward adc) !! i = Some p → p < capacity adc) ∧
  (∀ i p, cells (backward adc) !! i = Some p → p < capacity adc).
Proof.
  split; [apply adc_reachable|]. apply (arrays_fixed adc). apply adc_reachable.
Defined.

Lemma head_tail_ends_witness :
  reachable abc ∧
  (size abc = 0 → head abc = 0 ∧ tail abc = 0) ∧
  (0 < size abc → head abc < size abc ∧ tail abc < size abc) ∧
  (head abc = tail abc ↔ size abc ≤ 1) ∧
  ∃ es, to_list abc = Some (abc, es) ∧
        (0 < size abc → es !! 0 = Some (entry abc (head abc)) ∧
                        last es = Some (entry abc (tail abc))).
Proof.
  split; [apply abc_reachable|]. apply (head_tail_ends abc). apply abc_reachable.
Defined.

Lemma links_mirror_witness :
  reachable abc ∧ 1 < size abc ∧
  (1 ≠ tail abc →
     ∃ n, cells (forward abc) !! 1 = Some n ∧ n < size abc ∧ n ≠ head abc ∧
          cells (backward abc) !! n = Some 1) ∧
  (1 ≠ head abc →
     ∃ b, cells (backward abc) !! 1 = Some b ∧ b < size abc ∧ b ≠ tail abc ∧
          cells (forward abc) !! b = Some 1).
Proof.
  split; [apply abc_reachable|]. split; [simpl; lia|].
  apply (links_mirror abc 1); [apply abc_reachable|simpl; lia].
Defined.

Lemma set_present_updates_witness :
  reachable abc ∧ (has abc (JStr "b")).2 = true ∧
  ∃ c' es p,
    to_list abc = Some (abc, es) ∧ items abc !! JStr "b" = Some p ∧
    set abc (JStr "b") (JNum 9) = Some c' ∧
    size c' = size abc ∧ items c' = items abc ∧ keys c' = keys abc ∧
    values c' = <[p := JNum 9]> (values abc) ∧
    to_list c' = Some (c', (JStr "b", JNum 9) :: filter (λ e, e.1 ≠ JStr "b") es).
Proof.
  split; [apply abc_reachable|]. split; [vm_compute; reflexivity|].
  apply (set_present_updates abc (JStr "b") (JNum 9));
    [apply abc_reachable|vm_compute; reflexivity].
Defined.

Lemma set_absent_appends_witness :
  reachable empty3 ∧ (has empty3 (JStr "a")).2 = false ∧
  size empty3 < capacity empty3 ∧
  ∃ c' es,
    to_list empty3 = Some (empty3, es) ∧
    set empty3 (JStr "a") (JNum 1) = Some c' ∧
    size c' = S (size empty3) ∧ items c' !! JStr "a" = Some (size empty3) ∧
    entry c' (size empty3) = (JStr "a", JNum 1) ∧
    to_list c' = Some (c', (JStr "a", JNum 1) :: es).
Proof.
  split; [apply empty3_reachable|]. split; [vm_compute; reflexivity|].
  split; [simpl; lia|].
  apply (set_absent_appends empty3 (JStr "a") (JNum 1));
    [apply empty3_reachable|vm_compute; reflexivity|simpl; lia].
Defined.

Lemma set_twice_witness :
  reachable abc_a ∧ set abc_a (JStr "d") (JNum 4) = Some adc ∧
  set adc (JStr "d") (JNum 4) = Some adc.
Proof.
  split; [apply abc_a_reachable|]. split; [apply set_abc_a_d|].
  apply (set_twice abc_a adc (JStr "d") (JNum 4));
    [apply abc_a_reachable|apply set_abc_a_d].
Defined.

Lemma get_then_get_witness :
  reachable abc ∧ get abc (JStr "a") = Some (abc_a, JNum 1) ∧
  get abc (JStr "c") = Some (abc, JNum 3) ∧
  ∃ c3, get abc_a (JStr "c") = Some (c3, JNum 3) ∧ size abc_a = size abc ∧
        ∀ x, (has abc_a x).2 = (has abc x).2.
Proof.
  split; [apply abc_reachable|]. split; [apply get_abc_a|].
  split; [vm_compute; reflexivity|].
  apply (get_then_get abc abc_a abc (JStr "a") (JStr "c") (JNum 1) (JNum 3));
    [apply abc_reachable|apply get_abc_a|vm_compute; reflexivity].
Defined.

Lemma get_frame_witness :
  get abc (JStr "a") = Some (abc_a, JNum 1) ∧
  capacity abc_a = capacity abc ∧ size abc_a = size abc ∧
  items abc_a = items abc ∧ keys abc_a = keys abc ∧
  values abc_a = values abc ∧
  ∀ x, (has abc_a x).2 = (has abc x).2.
Proof.
  split; [apply get_abc_a|].
  apply (get_frame abc abc_a (JStr "a") (JNum 1)). apply get_abc_a.
Defined.

Lemma set_keeps_others_witness :
  reachable abc_a ∧ set abc_a (JStr "d") (JNum 4) = Some adc ∧
  JStr "a" ≠ JStr "d" ∧
  ((has adc (JStr "a")).2 = true →
     (has abc_a (JStr "a")).2 = true ∧
     items adc !! JStr "a" = items abc_a !! JStr "a" ∧
     ∀ c2 w, get abc_a (JStr "a") = Some (c2, w) →
             ∃ c3, get adc (JStr "a") = Some (c3, w)) ∧
  ((has abc_a (JStr "d")).2 = true ∨ size abc_a < capacity abc_a →
     (has adc (JStr "a")).2 = (has abc_a (JStr "a")).2).
Proof.
  split; [apply abc_a_reachable|]. split; [apply set_abc_a_d|].
  split; [discriminate|].
  apply (set_keeps_others abc_a adc (JStr "d") (JStr "a") (JNum 4));
    [apply abc_a_reachable|apply set_abc_a_d|discriminate].
Defined.

Lemma set_succeeds_witness :
  reachable abc ∧
  ∃ c', set abc (JStr "d") (JNum 4) = Some c' ∧
        capacity c' = capacity abc ∧
        size abc ≤ size c' ∧ size c' ≤ S (size abc) ∧ size c' ≤ capacity c' ∧
        0 < size c' ∧
        (has c' (JStr "d")).2 = true ∧ head_key c' (JStr "d") ∧
        entry c' (head c') = (JStr "d", JNum 4).
Proof.
  split; [apply abc_reachable|].
  apply (set_succeeds abc (JStr "d") (JNum 4)). apply abc_reachable.
Defined.

Lemma capacity_one_witness :
  reachable empty1 ∧ capacity empty1 = 1 ∧
  ∃ c', set empty1 (JStr "a") (JNum 1) = Some c' ∧ size c' = 1 ∧
        head c' = 0 ∧ tail c' = 0 ∧
        to_list c' = Some (c', [(JStr "a", JNum 1)]) ∧
        ∀ k', (has c' k').2 = true ↔ k' = JStr "a".
Proof.
  split; [apply empty1_reachable|]. split; [reflexivity|].
  apply (capacity_one empty1 (JStr "a") (JNum 1));
    [apply empty1_reachable|reflexivity].
Defined.

Lemma clear_then_set_witness :
  reachable abc ∧
  (∀ x, (has (clear abc) x).2 = false ∧
        get (clear abc) x = Some (clear abc, undefined)) ∧
  ∃ c', set (clear abc) (JStr "z") (JNum 0) = Some c' ∧ size c' = 1 ∧
        capacity c' = capacity abc ∧
        items c' = {[ JStr "z" := 0 ]} ∧ head c' = 0 ∧ tail c' = 0 ∧
        to_list c' = Some (c', [(JStr "z", JNum 0)]).
Proof.
  split; [apply abc_reachable|].
  apply (clear_then_set abc (JStr "z") (JNum 0)). apply abc_reachable.
Defined.

Lemma entries_are_the_cache_witness :
  reachable adc ∧
  ∃ es, to_list adc = Some (adc, es) ∧ length es = size adc ∧
        NoDup es.*1 ∧
        (∀ k, (has adc k).2 = true ↔ k ∈ es.*1) ∧
        (∀ k v, (k, v) ∈ es ↔
                (has adc k).2 = true ∧ ∃ c', get adc k = Some (c', v)).
Proof.
  split; [apply adc_reachable|].
  apply (entries_are_the_cache adc). apply adc_reachable.
Defined.

Lemma traversal_order_is_recency_witness :
  (0 < 3)%Q ∧ LRUCache_new 3 = Some empty3 ∧
  ∃ c' log es, run empty3 [] scenario_more = Some (c', log) ∧
               to_list c' = Some (c', es) ∧
               es.*1 = most_recent (capacity c') log.
Proof.
  split; [reflexivity|]. split; [apply empty3_new|].
  apply (traversal_order_is_recency 3 empty3 scenario_more);
    [reflexivity|apply empty3_new].
Defined.

Lemma last_write_wins_witness :
  (0 < 3)%Q ∧ LRUCache_new 3 = Some empty3 ∧
  ∃ c' log es,
    run empty3 [] scenario_more = Some (c', log) ∧
    to_list c' = Some (c', es) ∧
    ∀ k, (has c' k).2 = true →
         ∃ v c2, latest (reverse scenario_more) k = Some v ∧ (k, v) ∈ es ∧
                 get c' k = Some (c2, v).
Proof.
  split; [reflexivity|]. split; [apply empty3_new|].
  apply (last_write_wins 3 empty3 scenario_more);
    [reflexivity|apply empty3_new].
Defined.

Lemma iterator_terminates_witness :
  reachable adc ∧ it_pointer (entries abc).2 < capacity adc ∧
  it_l (entries abc).2 - it_i (entries abc).2 < 4 ∧
  ∃ it' es, drain 4 adc (entries abc).2 = Some (adc, it', es) ∧
            length es = it_l (entries abc).2 - it_i (entries abc).2 ∧
            it_l it' = it_l (entries abc).2 ∧ it_l it' ≤ it_i it' ∧
            it_pointer it' < capacity adc ∧
            next adc it' = Some (adc, it', None).
Proof.
  split; [apply adc_reachable|]. split; [simpl; lia|]. split; [simpl; lia|].
  apply (iterator_terminates adc (entries abc).2 4);
    [apply adc_reachable|simpl; lia|simpl; lia].
Defined.

Lemma inspect_lists_entries_witness :
  reachable adc ∧ size adc < 4 ∧
  ∃ es, to_list adc = Some (adc, es) ∧
        inspect 4 adc = Some (adc, mkProxy es LRUCacheConstructor).
Proof.
  split; [apply adc_reachable|]. split; [simpl; lia|].
  apply (inspect_lists_entries adc 4); [apply adc_reachable|simpl; lia].
Defined.

Lemma new_cache_is_empty_witness :
  LRUCache_new 3 = Some empty3 ∧
  (inject_Z (Z.of_nat (capacity empty3)) == 3)%Q ∧
  size empty3 = 0 ∧ head empty3 = 0 ∧ tail empty3 = 0 ∧ items empty3 = ∅ ∧
  cells (forward empty3) = replicate (capacity empty3) 0 ∧
  cells (backward empty3) = replicate (capacity empty3) 0 ∧
  keys empty3 = replicate (capacity empty3) undefined ∧
  values empty3 = replicate (capacity empty3) undefined ∧
  (∀ k, (has empty3 k).2 = false ∧ get empty3 k = Some (empty3, undefined)) ∧
  to_list empty3 = Some (empty3, []).
Proof.
  split; [apply empty3_new|].
  apply (new_cache_is_empty 3 empty3). apply empty3_new.
Defined.

Lemma pointers_never_wrap_witness :
  reachable adc ∧ 2 < capacity adc ∧
  wrap (elt (forward adc)) 2 = 2 ∧ wrap (elt (backward adc)) 2 = 2.
Proof.
  split; [apply adc_reachable|]. split; [simpl; lia|].
  apply (pointers_never_wrap adc 2); [apply adc_reachable|simpl; lia].
Defined.
